(** * Monte Carlo valuation of a European call: the simulation core

    A shallow embedding of [Monte_Carlo_Valuation.py], sections 1 to 3 of the
    script: parameter setup (lines 29-36), the GBM path simulation (lines
    44-52) and the payoff evaluation (lines 55-59), and of the data the
    plots of section 4 are given (lines 73, 85-91 and 97).  The date axis
    (lines 38-40) and the drawing itself are not modelled, and neither are
    the limits of the machine (memory for the arrays).

    Numbers.  The script computes with binary64 values.  In the first
    embedding they are modelled by [float64] below: a finite value is a
    real number and arithmetic on finite values is exact real arithmetic,
    so rounding, overflow and underflow are outside it (and with them the
    [OverflowError] of [sigma**2] for a volatility beyond about 1.34e154);
    the special values of IEEE 754 (the infinities and NaN) are kept, with
    the rules numpy applies to them, because the script can produce NaN
    without raising (square root of a negative step size, mean of an empty
    vector, 0/0).  Zero is unsigned and divides as +0.  Properties proved
    there are properties of the formulas the script computes, in exact
    arithmetic.  The second embedding, module [Binary64], runs the same
    lines on binary64 itself and shows where rounding, underflow and
    overflow make a difference.

    Randomness.  The only call of the random generator is
    [np.random.standard_normal]; the generator is an explicit stream of
    draws. *)

From Stdlib Require Import Reals Lra Lia ZArith List Bool.
From Stdlib Require PrimFloat.
Import ListNotations.

Local Open Scope R_scope.

(** ** Binary64 values, idealised *)

Inductive float64 : Type :=
| Num (x : R)
| Inf (negative : bool)
| NaN.

Definition Rltb (x y : R) : bool := if Rlt_dec x y then true else false.
Definition Rzerob (x : R) : bool := if Req_dec_T x 0 then true else false.

Definition fneg (a : float64) : float64 :=
  match a with
  | Num x => Num (- x)
  | Inf s => Inf (negb s)
  | NaN => NaN
  end.

Definition fadd (a b : float64) : float64 :=
  match a, b with
  | NaN, _ | _, NaN => NaN
  | Num x, Num y => Num (x + y)
  | Inf s, Num _ | Num _, Inf s => Inf s
  | Inf s, Inf s' => if eqb s s' then Inf s else NaN
  end.

Definition fsub (a b : float64) : float64 := fadd a (fneg b).

Definition fmul (a b : float64) : float64 :=
  match a, b with
  | NaN, _ | _, NaN => NaN
  | Num x, Num y => Num (x * y)
  | Inf s, Num x | Num x, Inf s =>
      if Rzerob x then NaN else Inf (xorb s (Rltb x 0))
  | Inf s, Inf s' => Inf (xorb s s')
  end.

(** numpy's true division: a finite value over zero is an infinity with the
    sign of the numerator, 0/0 is NaN, and no exception is raised. *)
Definition fdiv (a b : float64) : float64 :=
  match a, b with
  | NaN, _ | _, NaN => NaN
  | Num x, Num y =>
      if Rzerob y then (if Rzerob x then NaN else Inf (Rltb x 0))
      else Num (x / y)
  | Num _, Inf _ => Num 0
  | Inf s, Num y => Inf (xorb s (Rltb y 0))
  | Inf _, Inf _ => NaN
  end.

(** [np.exp] *)
Definition np_exp (a : float64) : float64 :=
  match a with
  | Num x => Num (exp x)
  | Inf false => Inf false
  | Inf true => Num 0
  | NaN => NaN
  end.

(** [np.sqrt]: NaN (and a warning, no exception) below zero. *)
Definition np_sqrt (a : float64) : float64 :=
  match a with
  | Num x => if Rltb x 0 then NaN else Num (sqrt x)
  | Inf false => Inf false
  | Inf true => NaN
  | NaN => NaN
  end.

(** [np.maximum] propagates NaN. *)
Definition np_maximum (a b : float64) : float64 :=
  match a, b with
  | NaN, _ | _, NaN => NaN
  | Num x, Num y => Num (Rmax x y)
  | Inf false, _ | _, Inf false => Inf false
  | Inf true, c | c, Inf true => c
  end.

(** [a > b]: false as soon as one side is NaN. *)
Definition fgt (a b : float64) : bool :=
  match a, b with
  | NaN, _ | _, NaN => false
  | Num x, Num y => Rltb y x
  | Inf sa, Inf sb => negb sa && sb
  | Inf s, Num _ => negb s
  | Num _, Inf s => s
  end.

(** ** Arrays *)

Definition vector := list float64.
Definition matrix := list (list float64).

Fixpoint map2 {A B C : Type} (f : A -> B -> C) (xs : list A) (ys : list B)
  : list C :=
  match xs, ys with
  | x :: xs', y :: ys' => f x y :: map2 f xs' ys'
  | _, _ => []
  end.

(** [row[t] = v]; every index the script writes is inside the row. *)
Fixpoint set_nth {A : Type} (t : nat) (v : A) (row : list A) : list A :=
  match row, t with
  | [], _ => []
  | _ :: rest, O => v :: rest
  | x :: rest, S t' => x :: set_nth t' v rest
  end.

(** [np.zeros((n, m))] *)
Definition np_zeros (n m : nat) : matrix := repeat (repeat (Num 0) m) n.

(** [A[:, t]] *)
Definition column {A : Type} (d : A) (t : nat) (rows : list (list A)) : list A :=
  map (fun row => nth t row d) rows.

(** [A[:, t] = col] *)
Definition set_column (t : nat) (col : vector) (rows : matrix) : matrix :=
  map2 (fun row v => set_nth t v row) rows col.

(** [A[:, t] = x] for a scalar [x], broadcast over the rows. *)
Definition fill_column (t : nat) (x : float64) (rows : matrix) : matrix :=
  set_column t (map (fun _ => x) rows) rows.

(** [A[:, -1]] *)
Definition last_column (rows : matrix) : vector :=
  map (fun row => last row (Num 0)) rows.

(** [A[i, t]] *)
Definition entry (rows : matrix) (i t : nat) : float64 :=
  nth t (nth i rows []) (Num 0).

(** [np.sum] of a float vector. *)
Definition np_sum (v : vector) : float64 := fold_left fadd v (Num 0).

(** [np.mean]: the sum over the number of elements; NaN on an empty vector. *)
Definition np_mean (v : vector) : float64 :=
  fdiv (np_sum v) (Num (INR (length v))).

(** [np.sum(v > k)]: the number of entries strictly above [k]. *)
Definition count_gt (k : float64) (v : vector) : nat :=
  length (filter (fun x => fgt x k) v).

(** ** Exceptions *)

Inductive exception : Type :=
| ZeroDivisionError   (* float division by zero *)
| ValueError.         (* negative dimensions are not allowed *)

Inductive result (A : Type) : Type :=
| Ok (a : A)
| Raise (e : exception).
Arguments Ok {A} a.
Arguments Raise {A} e.

Definition bind {A B : Type} (c : result A) (k : A -> result B) : result B :=
  match c with
  | Ok a => k a
  | Raise e => Raise e
  end.

Notation "x <- c ;; k" := (bind c (fun x => k))
  (at level 61, c at next level, right associativity).

(** Python's [x / n] for a float [x] and an int [n]. *)
Definition py_div (x : R) (n : Z) : result R :=
  if Z.eqb n 0 then Raise ZeroDivisionError else Ok (x / IZR n).

(** ** The random generator *)

(** The stream of standard-normal draws still to come. *)
Definition rng := nat -> R.

(** The n x m array of the first n*m draws of the stream, filled row by
    row. *)
Definition fill_normal (g : rng) (rows cols : nat) : list (list R) :=
  map (fun i => map (fun j => g (i * cols + j)%nat) (seq 0 cols))
      (seq 0 rows).

(** [np.random.standard_normal((n, m))]: the array drawn, and the stream
    left after it. *)
Definition standard_normal (g : rng) (n m : Z)
  : result (list (list R) * rng) :=
  if (n <? 0)%Z || (m <? 0)%Z then Raise ValueError
  else
    let rows := Z.to_nat n in
    let cols := Z.to_nat m in
    Ok (fill_normal g rows cols, fun k => g (rows * cols + k)%nat).

(** ** Section 1 of the script: parameters *)

Record Params : Type := {
  S0 : R;
  K : R;
  T : R;
  r : R;
  sigma : R;
  num_simulations : Z;
  num_steps : Z
}.

(** ** Section 2: the simulation *)

(** The body of [for t in range(1, num_steps + 1)]. *)
Definition path_step (p : Params) (dt : R) (Z : list (list R))
  (S_ : matrix) (t : nat) : matrix :=
  let drift := (r p - 0.5 * sigma p ^ 2) * dt in
  let diffusion :=
    map (fun z => fmul (fmul (Num (sigma p)) (np_sqrt (Num dt))) (Num z))
        (column 0 (t - 1) Z) in
  set_column t
    (map2 fmul (column (Num 0) (t - 1) S_)
               (map (fun d => np_exp (fadd (Num drift) d)) diffusion))
    S_.

(** [S] before the loop: zeros, then column 0 set to [S0]. *)
Definition initial_paths (p : Params) : matrix :=
  fill_column 0 (Num (S0 p))
    (np_zeros (Z.to_nat (num_simulations p)) (Z.to_nat (num_steps p + 1))).

(** [S] after the first [k] iterations of the loop. *)
Definition paths_after (p : Params) (dt : R) (Z : list (list R)) (k : nat)
  : matrix :=
  fold_left (path_step p dt Z) (seq 1 k) (initial_paths p).

(** ** Section 3: the results *)

Record Outputs : Type := {
  S_paths : matrix;        (* S *)
  S_T : vector;
  payoffs : vector;
  option_price : float64;
  prob_profit : float64;
  prob_loss : float64
}.

Definition eval_payoffs (k : R) (terminal : vector) : vector :=
  map (fun x => np_maximum (fsub x (Num k)) (Num 0)) terminal.

Definition eval_option_price (rate horizon : R) (pay : vector) : float64 :=
  fmul (np_mean pay) (np_exp (Num (- rate * horizon))).

Definition eval_prob_profit (k : R) (n : Z) (terminal : vector) : float64 :=
  fmul (fdiv (Num (INR (count_gt (Num k) terminal))) (Num (IZR n))) (Num 100).

Definition eval_prob_loss (profit : float64) : float64 :=
  fsub (Num 100) profit.

Definition evaluate (p : Params) (S_ : matrix) : Outputs :=
  let terminal := last_column S_ in
  let pay := eval_payoffs (K p) terminal in
  let profit := eval_prob_profit (K p) (num_simulations p) terminal in
  {| S_paths := S_;
     S_T := terminal;
     payoffs := pay;
     option_price := eval_option_price (r p) (T p) pay;
     prob_profit := profit;
     prob_loss := eval_prob_loss profit |}.

(** ** The script, sections 1 to 3 *)

Definition main (p : Params) (g : rng) : result Outputs :=
  dt <- py_div (T p) (num_steps p) ;;
  draw <- standard_normal g (num_simulations p) (num_steps p) ;;
  let Z := fst draw in
  Ok (evaluate p (paths_after p dt Z (Z.to_nat (num_steps p)))).

(** ** Notions used to state the properties *)

(** A matrix of [n] rows, each of width [w]. *)
Definition shaped (n w : nat) (rows : matrix) : Prop :=
  length rows = n /\ forall i, (i < n)%nat -> length (nth i rows []) = w.

(** [Z[i, t]] *)
Definition shock (Z : list (list R)) (i t : nat) : R := nth t (nth i Z []) 0.

(** The factor [np.exp(drift + diffusion)] of one path at one step, as the
    loop body computes it from the draw [z]. *)
Definition growth (p : Params) (dt z : R) : float64 :=
  np_exp (fadd (Num ((r p - 0.5 * sigma p ^ 2) * dt))
               (fmul (fmul (Num (sigma p)) (np_sqrt (Num dt))) (Num z))).

(** One path followed on its own: [S0] multiplied by the factors of its
    first [t] draws. *)
Fixpoint price_path (p : Params) (dt : R) (zrow : list R) (t : nat)
  : float64 :=
  match t with
  | O => Num (S0 p)
  | S t' => fmul (price_path p dt zrow t') (growth p dt (nth t' zrow 0))
  end.

(** The same path over the reals. *)
Fixpoint gbm (p : Params) (dt : R) (zrow : list R) (t : nat) : R :=
  match t with
  | O => S0 p
  | S t' =>
      gbm p dt zrow t'
      * exp ((r p - 0.5 * sigma p ^ 2) * dt + sigma p * sqrt dt * nth t' zrow 0)
  end.

(** The matrix the script holds when the loop has run, for parameters that
    get that far. *)
Definition simulated (p : Params) (g : rng) : matrix :=
  let N := Z.to_nat (num_simulations p) in
  let M := Z.to_nat (num_steps p) in
  paths_after p (T p / IZR (num_steps p)) (fill_normal g N M) M.

(** The sum and the arithmetic mean of a list of reals. *)
Definition Rsum (l : list R) : R := fold_right Rplus 0 l.
Definition Rmean (l : list R) : R := Rsum l / INR (length l).

(** ** Concrete inputs *)

(** The parameters written in the script. *)
Definition script_params : Params :=
  {| S0 := 255.78; K := 265.00; T := 1.0; r := 0.041; sigma := 0.28;
     num_simulations := 10000; num_steps := 252 |}.

(** A stream of draws that alternates between 1 and -1/2. *)
Definition alternating : rng :=
  fun k => if Nat.even k then 1 else - (1 / 2).

(** Three paths of one step each, and a matrix such a run could hold: one
    path ends above the strike, one below, one on it. *)
Definition three_paths_params : Params :=
  {| S0 := 255.78; K := 265.00; T := 1.0; r := 0.041; sigma := 0.28;
     num_simulations := 3; num_steps := 1 |}.

Definition three_paths : matrix :=
  [ [Num 255.78; Num 300]; [Num 255.78; Num 250]; [Num 255.78; Num 265] ].

(** The script's parameters with the volatility set to zero. *)
Definition drift_only_params : Params :=
  {| S0 := 255.78; K := 265.00; T := 1.0; r := 0.041; sigma := 0;
     num_simulations := 10000; num_steps := 252 |}.

(** The script's parameters with a negative spot price. *)
Definition negative_spot_params : Params :=
  {| S0 := - 255.78; K := 265.00; T := 1.0; r := 0.041; sigma := 0.28;
     num_simulations := 10000; num_steps := 252 |}.

(** The script's parameters with a negative horizon, and with no path. *)
Definition negative_horizon_params : Params :=
  {| S0 := 255.78; K := 265.00; T := - 1.0; r := 0.041; sigma := 0.28;
     num_simulations := 10000; num_steps := 252 |}.

Definition no_path_params : Params :=
  {| S0 := 255.78; K := 265.00; T := 1.0; r := 0.041; sigma := 0.28;
     num_simulations := 0; num_steps := 252 |}.

(** ** Parameter validation, as the specification words it *)

(** An assignment the specification calls invalid. *)
Definition invalid_params (p : Params) : Prop :=
  S0 p <= 0 \/ K p <= 0 \/ T p <= 0 \/
  (num_steps p < 1)%Z \/ (num_simulations p < 1)%Z \/ sigma p < 0.

(** The run stops with an exception. *)
Definition fails_fast (p : Params) (g : rng) : Prop :=
  exists e, main p g = Raise e.

(** ** Section 4 of the script: what the plots are given *)

(** [a >= b]: false as soon as one side is NaN. *)
Definition Rleb (x y : R) : bool := if Rle_dec x y then true else false.

Definition fge (a b : float64) : bool :=
  match a, b with
  | NaN, _ | _, NaN => false
  | Num x, Num y => Rleb y x
  | Inf sa, Inf sb => negb sa || sb
  | Inf s, Num _ => negb s
  | Num _, Inf s => s
  end.

(** [A.T] for an array of [w] columns.  The list of rows does not record
    the number of columns when there is no row, so it is passed along. *)
Definition np_transpose (w : nat) (rows : matrix) : matrix :=
  map (fun t => column (Num 0) t rows) (seq 0 w).

(** [S[:50, :].T], the lines handed to the path plot (line 73): one column
    per plotted path. *)
Definition plotted_paths (p : Params) (S_ : matrix) : matrix :=
  np_transpose (Z.to_nat (num_steps p + 1)) (firstn 50 S_).

(** [np.mean(S_T)], the average price marked on the histogram (line 97). *)
Definition avg_price (terminal : vector) : float64 := np_mean terminal.

(** The colour names the script uses, and the one of the colour cycle that
    the histogram gives its bars. *)
Inductive colour : Type :=
| forestgreen
| firebrick
| cycle_colour.

(** A bar of the histogram, as far as the script touches it. *)
Record Patch : Type := {
  facecolor : colour;
  alpha : option R
}.

Definition set_facecolor (c : colour) (pt : Patch) : Patch :=
  {| facecolor := c; alpha := alpha pt |}.

Definition set_alpha (a : R) (pt : Patch) : Patch :=
  {| facecolor := facecolor pt; alpha := Some a |}.

(** The body of [for bin_val, patch in zip(bins, patches)] (lines 86-91). *)
Definition colour_patch (k : R) (bin_val : float64) (pt : Patch) : Patch :=
  if fge bin_val (Num k)
  then set_alpha 0.7 (set_facecolor forestgreen pt)
  else set_alpha 0.7 (set_facecolor firebrick pt).

(** The patches after the loop: [zip] stops at the shorter of the two
    lists, and the patches it does not reach stay as they were. *)
Definition colour_patches (k : R) (bins : vector) (patches : list Patch)
  : list Patch :=
  map2 (colour_patch k) bins patches ++ skipn (length bins) patches.

(** ** More notions used to state properties *)

(** The parameters with the spot price and the strike both multiplied by
    [c]. *)
Definition scale_prices (c : R) (p : Params) : Params :=
  {| S0 := c * S0 p; K := c * K p; T := T p; r := r p; sigma := sigma p;
     num_simulations := num_simulations p; num_steps := num_steps p |}.

(** The parameters with the sign of the volatility changed. *)
Definition flip_sigma (p : Params) : Params :=
  {| S0 := S0 p; K := K p; T := T p; r := r p; sigma := - sigma p;
     num_simulations := num_simulations p; num_steps := num_steps p |}.

(** Edges that never decrease, as a histogram returns them. *)
Definition nondecreasing (edges : list R) : Prop :=
  forall i j, (i <= j < length edges)%nat -> nth i edges 0 <= nth j edges 0.

(** ** More concrete inputs *)

(** A stream of larger draws than [alternating]. *)
Definition alternating_up : rng :=
  fun k => if Nat.even k then 2 else 0.

(** The script's parameters with a zero horizon and a strike below the spot
    price. *)
Definition zero_horizon_params : Params :=
  {| S0 := 255.78; K := 250.00; T := 0; r := 0.041; sigma := 0.28;
     num_simulations := 10000; num_steps := 252 |}.

(** Three paths that all end above the strike. *)
Definition three_winning_paths : matrix :=
  [ [Num 255.78; Num 300]; [Num 255.78; Num 270]; [Num 255.78; Num 266] ].

(** Three paths none of which ends above the strike. *)
Definition three_losing_paths : matrix :=
  [ [Num 255.78; Num 200]; [Num 255.78; Num 250]; [Num 255.78; Num 265] ].

(** The left edges of three bins around the strike, the right edge of the
    last one, and the three bars as the histogram draws them before the
    loop. *)
Definition left_edges : list R := [250; 260; 270].

Definition right_edge : R := 280.

Definition blue_bar : Patch :=
  {| facecolor := cycle_colour; alpha := Some 0.7 |}.

Definition three_bars : list Patch := [blue_bar; blue_bar; blue_bar].

(** A stream that agrees with [alternating] on its first draw only. *)
Definition one_then_nine : rng :=
  fun k => if Nat.eqb k 0 then 1 else 9.

(** The terminal prices of a run over the reals, one per path. *)
Definition terminal_reals (p : Params) (g : rng) : list R :=
  map (fun zrow =>
         gbm p (T p / IZR (num_steps p)) zrow (Z.to_nat (num_steps p)))
      (fill_normal g (Z.to_nat (num_simulations p))
                     (Z.to_nat (num_steps p))).

(** The number of reals of a list strictly above [k]. *)
Definition count_above (k : R) (xs : list R) : nat :=
  length (filter (fun x => Rltb k x) xs).

(** The stream of the opposite draws. *)
Definition mirrored (g : rng) : rng := fun k => - g k.

(** The parameters with another strike. *)
Definition with_strike (k : R) (p : Params) : Params :=
  {| S0 := S0 p; K := k; T := T p; r := r p; sigma := sigma p;
     num_simulations := num_simulations p; num_steps := num_steps p |}.

(** A value that is not negative: a number at or above zero, plus infinity,
    or NaN. *)
Definition never_negative (v : float64) : Prop :=
  match v with
  | Num x => 0 <= x
  | Inf negative => negative = false
  | NaN => True
  end.

(** A count of moderate size: the date axis of line 40 stays inside the
    calendar and numpy can hold the dimension. *)
Definition moderate_count (n : Z) : Prop := (- 1000000 <= n <= 1000000)%Z.

(** The script's parameters with no step, with a negative number of steps,
    and with a negative number of paths. *)
Definition no_step_params : Params :=
  {| S0 := 255.78; K := 265.00; T := 1.0; r := 0.041; sigma := 0.28;
     num_simulations := 10000; num_steps := 0 |}.

Definition negative_steps_params : Params :=
  {| S0 := 255.78; K := 265.00; T := 1.0; r := 0.041; sigma := 0.28;
     num_simulations := 10000; num_steps := -252 |}.

Definition negative_paths_params : Params :=
  {| S0 := 255.78; K := 265.00; T := 1.0; r := 0.041; sigma := 0.28;
     num_simulations := -10000; num_steps := 252 |}.

(** * The same sections of the script on binary64 values

    A second embedding of lines 29-36 and 44-59, on Rocq's primitive
    binary64 floats, whose arithmetic is IEEE 754's and so Python's and
    numpy's, bit for bit.  It is used to run the script where rounding,
    underflow and overflow decide a property.  It returns [Undetermined]
    where the value is the math library's choice and not IEEE 754's:
    [np.exp] away from its saturated ranges and from zero, [sigma**2] for a
    volatility other than zero (C's [pow]), sums of eight terms or more
    (numpy adds those pairwise) and counts beyond 2^53. *)

Module Binary64.

Import PrimFloat.
Local Open Scope float_scope.
Set Warnings "-inexact-float".

Inductive outcome (A : Type) : Type :=
| Returns (a : A)
| Raises (e : exception)
| Undetermined.
Arguments Returns {A} a.
Arguments Raises {A} e.
Arguments Undetermined {A}.

Definition and_then {A B : Type} (c : outcome A) (k : A -> outcome B)
  : outcome B :=
  match c with
  | Returns a => k a
  | Raises e => Raises e
  | Undetermined => Undetermined
  end.

Local Notation "x <~ c ;; k" := (and_then c (fun x => k))
  (at level 61, c at next level, right associativity).

(** A list of outcomes that all returned. *)
Fixpoint all_returned {A : Type} (l : list (outcome A)) : outcome (list A) :=
  match l with
  | [] => Returns []
  | c :: rest => a <~ c ;; others <~ all_returned rest ;; Returns (a :: others)
  end.

(** The float of an int, exact below 2^53. *)
Fixpoint float_of_positive (n : positive) : float :=
  match n with
  | xH => 1
  | xO m => 2 * float_of_positive m
  | xI m => 2 * float_of_positive m + 1
  end.

Definition float_of_Z (n : Z) : outcome float :=
  if (Z.abs n <? 2 ^ 53)%Z then
    Returns match n with
            | Z0 => 0
            | Zpos m => float_of_positive m
            | Zneg m => - float_of_positive m
            end
  else Undetermined.

(** Python's [x / n] for a float [x] and an int [n]. *)
Definition py_div (x : float) (n : Z) : outcome float :=
  if Z.eqb n 0 then Raises ZeroDivisionError
  else d <~ float_of_Z n ;; Returns (x / d).

(** Python's [x ** 2]: CPython answers 0.0 itself for a zero base and
    hands every other finite base to C's [pow]. *)
Definition py_square (x : float) : outcome float :=
  if x =? 0 then Returns 0 else Undetermined.

(** [np.exp] where binary64 leaves no choice: NaN at NaN, 1 at zero, 0.0
    far below the underflow threshold (about -745.13) and infinity far
    above the overflow threshold (about 709.78). *)
Definition np_exp (x : float) : outcome float :=
  if is_nan x then Returns nan
  else if x =? 0 then Returns 1
  else if x <=? -1000 then Returns 0
  else if 1000 <=? x then Returns infinity
  else Undetermined.

(** [np.maximum] propagates NaN. *)
Definition np_maximum (a b : float) : float :=
  if is_nan a then a
  else if is_nan b then b
  else if b <=? a then a else b.

(** [np.sum] of fewer than eight floats: added one by one from 0. *)
Definition np_sum (v : list float) : outcome float :=
  if (length v <? 8)%nat then Returns (fold_left add v 0) else Undetermined.

(** [np.mean]: the sum over the number of elements; 0/0 is NaN. *)
Definition np_mean (v : list float) : outcome float :=
  s <~ np_sum v ;;
  n <~ float_of_Z (Z.of_nat (length v)) ;;
  Returns (s / n).

(** [np.sum(v > k)] *)
Definition count_gt (k : float) (v : list float) : nat :=
  length (filter (fun x => k <? x) v).

Definition rng := nat -> float.

Definition fill_normal (g : rng) (rows cols : nat) : list (list float) :=
  map (fun i => map (fun j => g (i * cols + j)%nat) (seq 0 cols))
      (seq 0 rows).

Definition standard_normal (g : rng) (n m : Z)
  : outcome (list (list float)) :=
  if (n <? 0)%Z || (m <? 0)%Z then Raises ValueError
  else Returns (fill_normal g (Z.to_nat n) (Z.to_nat m)).

Definition set_column (t : nat) (col : list float) (rows : list (list float))
  : list (list float) :=
  map2 (fun row v => set_nth t v row) rows col.

Record Params : Type := {
  S0 : float;
  K : float;
  T : float;
  r : float;
  sigma : float;
  num_simulations : Z;
  num_steps : Z
}.

(** The body of [for t in range(1, num_steps + 1)]. *)
Definition path_step (p : Params) (dt : float) (Z : list (list float))
  (S_ : list (list float)) (t : nat) : outcome (list (list float)) :=
  square <~ py_square (sigma p) ;;
  let drift := (r p - 0.5 * square) * dt in
  let diffusion :=
    map (fun z => sigma p * sqrt dt * z) (column 0 (t - 1) Z) in
  factors <~ all_returned (map (fun d => np_exp (drift + d)) diffusion) ;;
  Returns (set_column t (map2 mul (column 0 (t - 1) S_) factors) S_).

Definition initial_paths (p : Params) : list (list float) :=
  let zeros :=
    repeat (repeat 0 (Z.to_nat (num_steps p + 1)))
           (Z.to_nat (num_simulations p)) in
  set_column 0 (map (fun _ => S0 p) zeros) zeros.

Definition paths_after (p : Params) (dt : float) (Z : list (list float))
  (k : nat) : outcome (list (list float)) :=
  fold_left (fun state t => S_ <~ state ;; path_step p dt Z S_ t)
            (seq 1 k) (Returns (initial_paths p)).

Record Outputs : Type := {
  S_paths : list (list float);
  S_T : list float;
  payoffs : list float;
  option_price : float;
  prob_profit : float;
  prob_loss : float
}.

Definition evaluate (p : Params) (S_ : list (list float)) : outcome Outputs :=
  let terminal := map (fun row => last row 0) S_ in
  let pay := map (fun x => np_maximum (x - K p) 0) terminal in
  mean <~ np_mean pay ;;
  discount <~ np_exp (- r p * T p) ;;
  wins <~ float_of_Z (Z.of_nat (count_gt (K p) terminal)) ;;
  paths <~ float_of_Z (num_simulations p) ;;
  let profit := wins / paths * 100 in
  Returns {| S_paths := S_;
             S_T := terminal;
             payoffs := pay;
             option_price := mean * discount;
             prob_profit := profit;
             prob_loss := 100 - profit |}.

Definition main (p : Params) (g : rng) : outcome Outputs :=
  dt <~ py_div (T p) (num_steps p) ;;
  Z <~ standard_normal g (num_simulations p) (num_steps p) ;;
  S_ <~ paths_after p dt Z (Z.to_nat (num_steps p)) ;;
  evaluate p S_.

(** The price that zero volatility leads one to expect,
    [max(S0*exp(r*T) - K, 0) * exp(-r*T)], computed in binary64. *)
Definition drift_only_price (p : Params) : outcome float :=
  growth <~ np_exp (r p * T p) ;;
  discount <~ np_exp (- r p * T p) ;;
  Returns (np_maximum (S0 p * growth - K p) 0 * discount).

(** Every draw one half. *)
Definition halves : rng := fun _ => 0.5.

(** The script's spot and strike with no volatility and a rate of -1000:
    one path of one step. *)
Definition collapsing_params : Params :=
  {| S0 := 255.78; K := 265.00; T := 1.0; r := -1000; sigma := 0;
     num_simulations := 1; num_steps := 1 |}.

(** The script's spot with a strike of 200, no volatility and no interest:
    five paths of one step. *)
Definition becalmed_params : Params :=
  {| S0 := 255.78; K := 200.00; T := 1.0; r := 0; sigma := 0;
     num_simulations := 5; num_steps := 1 |}.

End Binary64.

(** ** Lists and arrays: index lemmas *)

Section Arrays.

Context {A B C : Type}.

Lemma map2_length (f : A -> B -> C) xs ys :
  length (map2 f xs ys) = Nat.min (length xs) (length ys).
Proof.
  revert ys; induction xs as [|x xs IH]; intros [|y ys]; simpl; auto.
Qed.

Lemma nth_map2 (f : A -> B -> C) xs ys i dx dy dz :
  (i < length xs)%nat -> (i < length ys)%nat ->
  nth i (map2 f xs ys) dz = f (nth i xs dx) (nth i ys dy).
Proof.
  revert ys i; induction xs as [|x xs IH]; intros [|y ys] [|i]; simpl;
    try lia; auto.
  intros; apply IH; lia.
Qed.

Lemma set_nth_length t (v : A) row : length (set_nth t v row) = length row.
Proof.
  revert t; induction row as [|x row IH]; intros [|t]; simpl; auto.
Qed.

Lemma nth_set_nth_eq t (v : A) row d :
  (t < length row)%nat -> nth t (set_nth t v row) d = v.
Proof.
  revert t; induction row as [|x row IH]; intros [|t]; simpl; try lia; auto.
  intros; apply IH; lia.
Qed.

Lemma nth_set_nth_neq t j (v : A) row d :
  j <> t -> nth j (set_nth t v row) d = nth j row d.
Proof.
  revert t j; induction row as [|x row IH]; intros [|t] [|j]; simpl;
    try congruence; auto.
Qed.

Lemma nth_column (d : A) t rows i :
  nth i (column d t rows) d = nth t (nth i rows []) d.
Proof.
  unfold column.
  rewrite <- (map_nth (fun row => nth t row d) rows [] i).
  destruct t; reflexivity.
Qed.

Lemma column_length (d : A) t rows : length (column d t rows) = length rows.
Proof. apply length_map. Qed.

End Arrays.

Lemma set_column_length t col rows :
  length col = length rows -> length (set_column t col rows) = length rows.
Proof. intros H; unfold set_column; rewrite map2_length, H; lia. Qed.

Lemma nth_set_column t col rows i :
  length col = length rows -> (i < length rows)%nat ->
  nth i (set_column t col rows) [] = set_nth t (nth i col NaN) (nth i rows []).
Proof.
  intros Hc Hi; unfold set_column.
  apply (nth_map2 (fun row v => set_nth t v row)); lia.
Qed.

Lemma set_column_shaped n w t col rows :
  shaped n w rows -> length col = n -> shaped n w (set_column t col rows).
Proof.
  intros [Hn Hw] Hc; split.
  - rewrite set_column_length; lia.
  - intros i Hi.
    rewrite nth_set_column, set_nth_length by lia; auto.
Qed.

Lemma entry_set_column n w t col rows i j :
  shaped n w rows -> length col = n -> (i < n)%nat -> (t < w)%nat ->
  entry (set_column t col rows) i j =
    if Nat.eqb j t then nth i col NaN else entry rows i j.
Proof.
  intros [Hn Hw] Hc Hi Ht; unfold entry.
  rewrite nth_set_column by lia.
  destruct (Nat.eqb_spec j t) as [->|Hne].
  - apply nth_set_nth_eq; rewrite Hw; auto.
  - apply nth_set_nth_neq; auto.
Qed.

Lemma np_zeros_shaped n w : shaped n w (np_zeros n w).
Proof.
  unfold np_zeros; split.
  - apply repeat_length.
  - intros i Hi.
    rewrite (nth_repeat_lt (repeat (Num 0) w) []) by lia.
    apply repeat_length.
Qed.

Lemma entry_np_zeros n w i j : entry (np_zeros n w) i j = Num 0.
Proof.
  unfold entry, np_zeros.
  destruct (Nat.lt_ge_cases i n) as [Hi|Hi].
  - rewrite nth_repeat_lt by lia.
    destruct (Nat.lt_ge_cases j w) as [Hj|Hj].
    + apply nth_repeat_lt; lia.
    + apply nth_overflow; rewrite repeat_length; lia.
  - rewrite (nth_overflow _ []) by (rewrite repeat_length; lia).
    destruct j; reflexivity.
Qed.

(** ** The shock matrix *)

Lemma fill_normal_length g n m : length (fill_normal g n m) = n.
Proof. unfold fill_normal; rewrite length_map; apply length_seq. Qed.

Lemma shock_fill_normal g n m i t :
  (i < n)%nat -> (t < m)%nat ->
  shock (fill_normal g n m) i t = g (i * m + t)%nat.
Proof.
  intros Hi Ht; unfold shock, fill_normal.
  rewrite (nth_indep _ [] (map (fun j => g (0 * m + j)%nat) (seq 0 m)))
    by (rewrite length_map, length_seq; lia).
  rewrite (map_nth (fun i => map (fun j => g (i * m + j)%nat) (seq 0 m))).
  rewrite seq_nth by lia; simpl.
  rewrite (nth_indep _ 0 (g (i * m + 0)%nat))
    by (rewrite length_map, length_seq; lia).
  rewrite (map_nth (fun j => g (i * m + j)%nat)).
  rewrite seq_nth by lia; reflexivity.
Qed.

(** ** Broadcast assignment of a column *)

Lemma fill_column_shaped n w t x rows :
  shaped n w rows -> shaped n w (fill_column t x rows).
Proof.
  intros H; apply set_column_shaped; auto.
  rewrite length_map; apply H.
Qed.

Lemma entry_fill_column n w t x rows i j :
  shaped n w rows -> (i < n)%nat -> (t < w)%nat ->
  entry (fill_column t x rows) i j =
    if Nat.eqb j t then x else entry rows i j.
Proof.
  intros H Hi Ht; unfold fill_column.
  assert (Hlen : length rows = n) by apply H.
  rewrite (entry_set_column n w) by (auto; rewrite length_map; auto).
  destruct (Nat.eqb j t); auto.
  rewrite (nth_indep _ NaN x) by (rewrite length_map; lia).
  apply (map_nth (fun _ => x) rows []).
Qed.

(** ** The loop of section 2 *)

Section Loop.

Variable p : Params.
Variable dt : R.
Variable Z : list (list R).
Variables n w : nat.
Hypothesis Z_rows : length Z = n.

Lemma path_step_column S_ t i :
  shaped n w S_ -> (i < n)%nat ->
  nth i (map2 fmul (column (Num 0) (t - 1) S_)
           (map (fun d => np_exp (fadd (Num ((r p - 0.5 * sigma p ^ 2) * dt)) d))
              (map (fun z =>
                      fmul (fmul (Num (sigma p)) (np_sqrt (Num dt))) (Num z))
                 (column 0 (t - 1) Z)))) NaN
  = fmul (entry S_ i (t - 1)) (growth p dt (shock Z i (t - 1))).
Proof using Z_rows.
  intros [Hn _] Hi.
  rewrite (nth_map2 fmul _ _ i (Num 0) (growth p dt 0))
    by (rewrite ?length_map, column_length; lia).
  rewrite nth_column, map_map.
  rewrite (map_nth (fun z => growth p dt z)), nth_column.
  reflexivity.
Qed.

Lemma path_step_shaped S_ t :
  shaped n w S_ -> shaped n w (path_step p dt Z S_ t).
Proof using Z_rows.
  intros H; apply set_column_shaped; auto.
  rewrite map2_length, !length_map, !column_length.
  destruct H as [Hn _]; lia.
Qed.

Lemma entry_path_step S_ t i j :
  shaped n w S_ -> (i < n)%nat -> (t < w)%nat ->
  entry (path_step p dt Z S_ t) i j =
    if Nat.eqb j t
    then fmul (entry S_ i (t - 1)) (growth p dt (shock Z i (t - 1)))
    else entry S_ i j.
Proof using Z_rows.
  intros H Hi Ht; unfold path_step.
  rewrite (entry_set_column n w); auto.
  - destruct (Nat.eqb j t); auto using path_step_column.
  - rewrite map2_length, !length_map, !column_length.
    destruct H as [Hn _]; lia.
Qed.

End Loop.

(** ** The matrix after [k] iterations *)

Section Paths.

Variable p : Params.
Variable dt : R.
Variable Z : list (list R).
Variables n w : nat.
Hypothesis n_rows : n = Z.to_nat (num_simulations p).
Hypothesis w_cols : w = Z.to_nat (num_steps p + 1).
Hypothesis Z_rows : length Z = n.

Lemma initial_paths_shaped : shaped n w (initial_paths p).
Proof.
  unfold initial_paths; apply fill_column_shaped.
  rewrite n_rows, w_cols; apply np_zeros_shaped.
Qed.

Lemma entry_initial_paths i j :
  (i < n)%nat -> (0 < w)%nat ->
  entry (initial_paths p) i j = if Nat.eqb j 0 then Num (S0 p) else Num 0.
Proof.
  intros Hi Hw; unfold initial_paths.
  rewrite (entry_fill_column n w), entry_np_zeros; auto.
  rewrite n_rows, w_cols; apply np_zeros_shaped.
Qed.

Lemma paths_after_S k :
  paths_after p dt Z (S k) = path_step p dt Z (paths_after p dt Z k) (S k).
Proof.
  unfold paths_after; rewrite seq_S, fold_left_app; reflexivity.
Qed.

Lemma paths_after_shaped k : shaped n w (paths_after p dt Z k).
Proof.
  induction k as [|k IH].
  - apply initial_paths_shaped.
  - rewrite paths_after_S; apply path_step_shaped; auto.
Qed.

(** Loop invariant: after [k] iterations, columns [0..k] of row [i] hold
    the path of row [i] of the shocks, and the later columns are still the
    zeros of the allocation. *)
Lemma entry_paths_after k i j :
  (k < w)%nat -> (i < n)%nat ->
  entry (paths_after p dt Z k) i j =
    if Nat.leb j k then price_path p dt (nth i Z []) j else Num 0.
Proof.
  intros Hk Hi; revert j; induction k as [|k IH]; intros j.
  - unfold paths_after; simpl fold_left.
    rewrite entry_initial_paths by lia.
    destruct j; reflexivity.
  - rewrite paths_after_S.
    rewrite (entry_path_step p dt Z n w) by auto using paths_after_shaped.
    destruct (Nat.eqb_spec j (S k)) as [->|Hne].
    + rewrite Nat.leb_refl, IH by lia.
      replace (S k - 1)%nat with k by lia.
      rewrite Nat.leb_refl; reflexivity.
    + rewrite IH by lia.
      destruct (Nat.leb_spec j k), (Nat.leb_spec j (S k)); auto; lia.
Qed.

End Paths.

(** ** Finite paths *)

Lemma np_sqrt_nonneg x : 0 <= x -> np_sqrt (Num x) = Num (sqrt x).
Proof.
  intros Hx; unfold np_sqrt, Rltb.
  destruct (Rlt_dec x 0); auto; lra.
Qed.

Lemma growth_finite p dt z :
  0 <= dt ->
  growth p dt z =
    Num (exp ((r p - 0.5 * sigma p ^ 2) * dt + sigma p * sqrt dt * z)).
Proof.
  intros Hdt; unfold growth; rewrite np_sqrt_nonneg by auto; reflexivity.
Qed.

Lemma price_path_finite p dt zrow t :
  0 <= dt -> price_path p dt zrow t = Num (gbm p dt zrow t).
Proof.
  intros Hdt; induction t as [|t IH]; simpl; auto.
  rewrite IH, growth_finite by auto; reflexivity.
Qed.

Lemma gbm_pos p dt zrow t : 0 < S0 p -> 0 < gbm p dt zrow t.
Proof.
  intros H0; induction t as [|t IH]; simpl; auto.
  apply Rmult_lt_0_compat; auto using exp_pos.
Qed.

Lemma step_size_nonneg x (m : Z) : 0 <= x -> (1 <= m)%Z -> 0 <= x / IZR m.
Proof.
  intros Hx Hm.
  assert (Hpos : 0 < IZR m) by (apply (IZR_lt 0); lia).
  apply Rmult_le_pos; auto.
  apply Rlt_le, Rinv_0_lt_compat; auto.
Qed.

(** ** The whole run *)

Lemma py_div_nonzero x m : (m <> 0)%Z -> py_div x m = Ok (x / IZR m).
Proof.
  intros Hm; unfold py_div.
  destruct (Z.eqb_spec m 0); [contradiction | reflexivity].
Qed.

Lemma standard_normal_ok g n m :
  (0 <= n)%Z -> (0 <= m)%Z ->
  standard_normal g n m =
    Ok (fill_normal g (Z.to_nat n) (Z.to_nat m),
        fun k => g (Z.to_nat n * Z.to_nat m + k)%nat).
Proof.
  intros Hn Hm; unfold standard_normal.
  destruct (Z.ltb_spec n 0), (Z.ltb_spec m 0); try lia; reflexivity.
Qed.

Lemma main_runs p g :
  (1 <= num_steps p)%Z -> (0 <= num_simulations p)%Z ->
  main p g = Ok (evaluate p (simulated p g)).
Proof.
  intros HM HN; unfold main.
  rewrite py_div_nonzero by lia; simpl bind.
  rewrite standard_normal_ok by lia; reflexivity.
Qed.

Section Simulated.

Variable p : Params.
Variable g : rng.
Hypothesis steps : (1 <= num_steps p)%Z.
Hypothesis sims : (0 <= num_simulations p)%Z.

Let N := Z.to_nat (num_simulations p).
Let M := Z.to_nat (num_steps p).
Let dt := T p / IZR (num_steps p).
Let Z := fill_normal g N M.

Lemma width_is_steps_plus_one : Z.to_nat (num_steps p + 1) = S M.
Proof using steps. unfold M; lia. Qed.

Lemma paths_prefix_shaped k : shaped N (S M) (paths_after p dt Z k).
Proof using steps.
  apply paths_after_shaped.
  - reflexivity.
  - symmetry; apply width_is_steps_plus_one.
  - apply fill_normal_length.
Qed.

Lemma entry_paths_prefix k i t :
  (k <= M)%nat -> (i < N)%nat ->
  entry (paths_after p dt Z k) i t =
    if Nat.leb t k then price_path p dt (nth i Z []) t else Num 0.
Proof using steps.
  intros Hk Hi.
  apply (entry_paths_after p dt Z N (S M)).
  - reflexivity.
  - symmetry; apply width_is_steps_plus_one.
  - apply fill_normal_length.
  - lia.
  - exact Hi.
Qed.

Lemma simulated_shaped : shaped N (S M) (simulated p g).
Proof using steps. apply paths_prefix_shaped. Qed.

Lemma entry_simulated i t :
  (i < N)%nat -> (t <= M)%nat ->
  entry (simulated p g) i t = price_path p dt (nth i Z []) t.
Proof using steps.
  intros Hi Ht; unfold simulated.
  fold N M dt Z; rewrite entry_paths_prefix by auto.
  destruct (Nat.leb_spec t M); auto; lia.
Qed.

End Simulated.

(** ** Section 3 on finite vectors *)

Lemma Rltb_true x y : Rltb x y = true <-> x < y.
Proof.
  unfold Rltb; destruct (Rlt_dec x y); split; auto; discriminate.
Qed.

Lemma Rzerob_nonzero x : x <> 0 -> Rzerob x = false.
Proof.
  intros Hx; unfold Rzerob; destruct (Req_dec_T x 0); [contradiction | auto].
Qed.

Lemma fdiv_finite x y : y <> 0 -> fdiv (Num x) (Num y) = Num (x / y).
Proof. intros Hy; unfold fdiv; rewrite Rzerob_nonzero; auto. Qed.

Lemma fold_fadd_reals xs a :
  fold_left fadd (map Num xs) (Num a) = Num (a + Rsum xs).
Proof.
  revert a; induction xs as [|x xs IH]; intros a; simpl.
  - f_equal; lra.
  - rewrite IH; f_equal; lra.
Qed.

Lemma np_sum_reals xs : np_sum (map Num xs) = Num (Rsum xs).
Proof. unfold np_sum; rewrite fold_fadd_reals; f_equal; lra. Qed.

Lemma np_mean_reals xs : xs <> [] -> np_mean (map Num xs) = Num (Rmean xs).
Proof.
  intros Hxs; unfold np_mean.
  rewrite np_sum_reals, length_map, fdiv_finite; auto.
  apply not_0_INR; destruct xs; simpl; congruence.
Qed.

Lemma eval_payoffs_reals k xs :
  eval_payoffs k (map Num xs) = map Num (map (fun x => Rmax (x - k) 0) xs).
Proof. unfold eval_payoffs; rewrite !map_map; reflexivity. Qed.

Lemma Rsum_nonneg xs : Forall (fun x => 0 <= x) xs -> 0 <= Rsum xs.
Proof.
  induction 1 as [|x xs Hx _ IH]; simpl; lra.
Qed.

Lemma Rmean_nonneg xs : Forall (fun x => 0 <= x) xs -> 0 <= Rmean xs.
Proof.
  intros H; unfold Rmean, Rdiv.
  apply Rmult_le_pos; [apply Rsum_nonneg; auto|].
  destruct xs as [|x xs].
  - simpl; rewrite Rinv_0; lra.
  - apply Rlt_le, Rinv_0_lt_compat, lt_0_INR; simpl; lia.
Qed.

Lemma call_payoffs_nonneg k xs :
  Forall (fun x => 0 <= x) (map (fun x => Rmax (x - k) 0) xs).
Proof. apply Forall_map, Forall_forall; intros x _; apply Rmax_r. Qed.

Lemma Rsum_constant c n : Rsum (repeat c n) = INR n * c.
Proof.
  induction n as [|n IH].
  - simpl; lra.
  - rewrite S_INR; simpl repeat; simpl Rsum; rewrite IH; lra.
Qed.

Lemma Rmean_constant c n : (0 < n)%nat -> Rmean (repeat c n) = c.
Proof.
  intros Hn; unfold Rmean; rewrite Rsum_constant, repeat_length.
  field; apply not_0_INR; lia.
Qed.

Lemma option_price_reals rate horizon k xs :
  xs <> [] ->
  eval_option_price rate horizon (eval_payoffs k (map Num xs)) =
    Num (Rmean (map (fun x => Rmax (x - k) 0) xs) * exp (- rate * horizon)).
Proof.
  intros Hxs; unfold eval_option_price.
  rewrite eval_payoffs_reals, np_mean_reals; [reflexivity|].
  destruct xs; simpl; congruence.
Qed.

(** ** The terminal column *)

Lemma last_is_nth {A : Type} (l : list A) d :
  last l d = nth (length l - 1) l d.
Proof.
  induction l as [|x [|y l] IH]; auto.
  change (last (x :: y :: l) d) with (last (y :: l) d).
  rewrite IH; simpl; rewrite Nat.sub_0_r; reflexivity.
Qed.

Lemma nth_last_column n w rows i :
  shaped n (S w) rows -> (i < n)%nat ->
  nth i (last_column rows) (Num 0) = entry rows i w.
Proof.
  intros [Hn Hw] Hi; unfold last_column, entry.
  etransitivity;
    [exact (map_nth (fun row => last row (Num 0)) rows [] i)|].
  rewrite last_is_nth, Hw by auto.
  simpl; rewrite Nat.sub_0_r; reflexivity.
Qed.

Lemma terminal_prices p g :
  (1 <= num_steps p)%Z ->
  last_column (simulated p g) =
    map (fun zrow =>
           price_path p (T p / IZR (num_steps p)) zrow
                      (Z.to_nat (num_steps p)))
        (fill_normal g (Z.to_nat (num_simulations p))
                       (Z.to_nat (num_steps p))).
Proof.
  intros HM.
  pose proof (simulated_shaped p g HM) as Hsh.
  assert (Hlen : length (simulated p g) = Z.to_nat (num_simulations p))
    by apply Hsh.
  apply (nth_ext _ _ (Num 0) (price_path p (T p / IZR (num_steps p)) []
                                 (Z.to_nat (num_steps p)))).
  - unfold last_column; rewrite !length_map, fill_normal_length; auto.
  - intros i Hi.
    unfold last_column in Hi; rewrite length_map, Hlen in Hi.
    rewrite (nth_last_column _ _ _ _ Hsh Hi).
    rewrite entry_simulated by (auto; lia).
    rewrite (map_nth (fun zrow => price_path p _ zrow _)); reflexivity.
Qed.

Lemma terminal_prices_finite p g :
  (1 <= num_steps p)%Z -> 0 <= T p ->
  last_column (simulated p g) =
    map Num
      (map (fun zrow =>
              gbm p (T p / IZR (num_steps p)) zrow (Z.to_nat (num_steps p)))
           (fill_normal g (Z.to_nat (num_simulations p))
                          (Z.to_nat (num_steps p)))).
Proof.
  intros HM HT; rewrite terminal_prices, map_map by auto.
  apply map_ext; intros zrow.
  apply price_path_finite, step_size_nonneg; auto.
Qed.

(** ** Zero volatility *)

Lemma gbm_drift_only p dt zrow t :
  sigma p = 0 -> gbm p dt zrow t = S0 p * exp (r p * dt * INR t).
Proof.
  intros Hs; induction t as [|t IH].
  - simpl; rewrite Rmult_0_r, exp_0; lra.
  - rewrite S_INR; simpl gbm; rewrite IH, Hs.
    rewrite Rmult_assoc, <- exp_plus.
    do 2 f_equal; lra.
Qed.

Lemma steps_times_step_size x (m : Z) :
  (1 <= m)%Z -> x / IZR m * INR (Z.to_nat m) = x.
Proof.
  intros Hm; rewrite INR_IZR_INZ, Z2Nat.id by lia.
  field; apply not_0_IZR; lia.
Qed.

Lemma gbm_drift_only_terminal p zrow :
  sigma p = 0 -> (1 <= num_steps p)%Z ->
  gbm p (T p / IZR (num_steps p)) zrow (Z.to_nat (num_steps p)) =
    S0 p * exp (r p * T p).
Proof.
  intros Hs HM; rewrite gbm_drift_only by auto.
  rewrite Rmult_assoc, steps_times_step_size by auto; reflexivity.
Qed.

(** ** NaN in the run *)

Lemma fmul_NaN_r a : fmul a NaN = NaN.
Proof. destruct a; reflexivity. Qed.

Lemma np_sqrt_negative x : x < 0 -> np_sqrt (Num x) = NaN.
Proof.
  intros Hx; unfold np_sqrt, Rltb.
  destruct (Rlt_dec x 0); [reflexivity | contradiction].
Qed.

Lemma growth_negative_step p dt z : dt < 0 -> growth p dt z = NaN.
Proof.
  intros Hdt; unfold growth; rewrite np_sqrt_negative by auto; reflexivity.
Qed.

Lemma price_path_negative_step p dt zrow t :
  dt < 0 -> price_path p dt zrow (S t) = NaN.
Proof.
  intros Hdt; simpl; rewrite growth_negative_step by auto.
  apply fmul_NaN_r.
Qed.

Lemma step_size_negative x (m : Z) : x < 0 -> (1 <= m)%Z -> x / IZR m < 0.
Proof.
  intros Hx Hm.
  assert (Hpos : 0 < / IZR m)
    by (apply Rinv_0_lt_compat, (IZR_lt 0); lia).
  unfold Rdiv; nra.
Qed.

Lemma fold_fadd_NaN v : fold_left fadd v NaN = NaN.
Proof. induction v as [|a v IH]; simpl; auto. Qed.

Lemma np_sum_NaN n : (0 < n)%nat -> np_sum (repeat NaN n) = NaN.
Proof.
  destruct n as [|n]; [lia|]; intros _.
  unfold np_sum; simpl; apply fold_fadd_NaN.
Qed.


(** ** A run without paths *)

Lemma paths_after_no_path p dt Z k :
  num_simulations p = 0%Z -> paths_after p dt Z k = [].
Proof.
  intros HN; induction k as [|k IH].
  - unfold paths_after, initial_paths; rewrite HN; reflexivity.
  - unfold paths_after in *; rewrite seq_S, fold_left_app, IH; reflexivity.
Qed.

(** ** Counting *)

Lemma count_gt_le_length k v : (count_gt k v <= length v)%nat.
Proof. unfold count_gt; apply filter_length_le. Qed.

(** ** The closed form of a path *)

Lemma Rsum_app xs ys : Rsum (xs ++ ys) = Rsum xs + Rsum ys.
Proof. induction xs as [|x xs IH]; simpl; lra. Qed.

Lemma firstn_S_nth (zrow : list R) t :
  (t < length zrow)%nat ->
  firstn (S t) zrow = firstn t zrow ++ [nth t zrow 0].
Proof.
  revert t; induction zrow as [|z zrow IH]; intros t Ht; simpl in Ht.
  - lia.
  - destruct t as [|t]; [reflexivity|].
    change (firstn (S (S t)) (z :: zrow)) with (z :: firstn (S t) zrow).
    rewrite IH by lia; reflexivity.
Qed.

Lemma gbm_closed_form p dt zrow t :
  (t <= length zrow)%nat ->
  gbm p dt zrow t =
    S0 p * exp ((r p - 0.5 * sigma p ^ 2) * dt * INR t
                + sigma p * sqrt dt * Rsum (firstn t zrow)).
Proof.
  induction t as [|t IH]; intros Ht.
  - simpl; rewrite !Rmult_0_r, Rplus_0_l, exp_0; lra.
  - rewrite firstn_S_nth, Rsum_app, S_INR by lia.
    simpl gbm; rewrite IH by lia.
    rewrite Rmult_assoc, <- exp_plus.
    do 2 f_equal; simpl; lra.
Qed.

Lemma fill_normal_row_length g n m i :
  (i < n)%nat -> length (nth i (fill_normal g n m) []) = m.
Proof.
  intros Hi; unfold fill_normal.
  rewrite (nth_indep _ [] (map (fun j => g (0 * m + j)%nat) (seq 0 m)))
    by (rewrite length_map, length_seq; lia).
  rewrite (map_nth (fun i => map (fun j => g (i * m + j)%nat) (seq 0 m))).
  rewrite length_map, length_seq; reflexivity.
Qed.

(** ** What a price depends on *)

Lemma price_path_ext p dt z1 z2 t :
  (forall j, (j < t)%nat -> nth j z1 0 = nth j z2 0) ->
  price_path p dt z1 t = price_path p dt z2 t.
Proof.
  induction t as [|t IH]; intros H; simpl; auto.
  rewrite IH, H by (auto; lia); reflexivity.
Qed.

Lemma nth_fill_normal g n m i j :
  (i < n)%nat -> (j < m)%nat ->
  nth j (nth i (fill_normal g n m) []) 0 = g (i * m + j)%nat.
Proof. apply shock_fill_normal. Qed.

Lemma entry_simulated_ext p g1 g2 i t :
  (1 <= num_steps p)%Z ->
  (i < Z.to_nat (num_simulations p))%nat ->
  (t <= Z.to_nat (num_steps p))%nat ->
  (forall j, (j < t)%nat ->
     g1 (i * Z.to_nat (num_steps p) + j)%nat =
     g2 (i * Z.to_nat (num_steps p) + j)%nat) ->
  entry (simulated p g1) i t = entry (simulated p g2) i t.
Proof.
  intros HM Hi Ht H.
  rewrite !entry_simulated by auto.
  apply price_path_ext; intros j Hj.
  rewrite !nth_fill_normal by lia; auto.
Qed.

(** ** Matrices are their entries *)

Lemma matrix_ext n w (A B : matrix) :
  shaped n w A -> shaped n w B ->
  (forall i t, (i < n)%nat -> (t < w)%nat -> entry A i t = entry B i t) ->
  A = B.
Proof.
  intros [HA HAw] [HB HBw] H.
  apply (nth_ext _ _ [] []); [lia|].
  intros i Hi; rewrite HA in Hi.
  apply (nth_ext _ _ (Num 0) (Num 0)).
  - rewrite HAw, HBw; auto.
  - intros t Ht; rewrite HAw in Ht by auto.
    apply H; auto.
Qed.

(** ** The sign of the volatility *)

Lemma growth_flip p dt z :
  growth (flip_sigma p) dt (- z) = growth p dt z.
Proof.
  unfold growth; simpl sigma; simpl r.
  destruct (Rlt_dec dt 0) as [Hneg|Hpos].
  - rewrite np_sqrt_negative by auto; reflexivity.
  - rewrite np_sqrt_nonneg by lra; simpl.
    do 2 f_equal; lra.
Qed.

Lemma price_path_flip p dt z' z t :
  (forall j, (j < t)%nat -> nth j z' 0 = - nth j z 0) ->
  price_path (flip_sigma p) dt z' t = price_path p dt z t.
Proof.
  induction t as [|t IH]; intros H; simpl; auto.
  rewrite IH, H, growth_flip by (auto; lia); reflexivity.
Qed.

Lemma simulated_flip p g :
  (1 <= num_steps p)%Z ->
  simulated (flip_sigma p) (mirrored g) = simulated p g.
Proof.
  intros HM.
  apply (matrix_ext (Z.to_nat (num_simulations p))
                    (S (Z.to_nat (num_steps p)))).
  - apply (simulated_shaped (flip_sigma p)); auto.
  - apply simulated_shaped; auto.
  - intros i t Hi Ht.
    rewrite (entry_simulated (flip_sigma p)) by (auto; simpl; lia).
    rewrite entry_simulated by (auto; lia).
    apply price_path_flip; intros j Hj; simpl.
    rewrite !nth_fill_normal by lia; reflexivity.
Qed.

(** ** The evaluator on finite vectors *)

Lemma count_gt_reals k xs :
  count_gt (Num k) (map Num xs) = count_above k xs.
Proof.
  unfold count_gt, count_above; induction xs as [|x xs IH]; simpl; auto.
  destruct (Rltb k x); simpl; auto.
Qed.

Lemma evaluate_finite p S_ xs :
  last_column S_ = map Num xs -> xs <> [] ->
  num_simulations p = Z.of_nat (length xs) ->
  option_price (evaluate p S_) =
    Num (Rmean (map (fun x => Rmax (x - K p) 0) xs) * exp (- r p * T p)) /\
  prob_profit (evaluate p S_) =
    Num (INR (count_above (K p) xs) / INR (length xs) * 100) /\
  prob_loss (evaluate p S_) =
    Num (100 - INR (count_above (K p) xs) / INR (length xs) * 100).
Proof.
  intros Hcol Hxs HN.
  assert (Hlen : INR (length xs) <> 0)
    by (apply not_0_INR; destruct xs; simpl; congruence).
  unfold evaluate; simpl; rewrite Hcol.
  unfold eval_prob_loss, eval_prob_profit.
  rewrite option_price_reals, count_gt_reals, HN, <- INR_IZR_INZ by auto.
  rewrite fdiv_finite by auto.
  repeat split.
Qed.

Lemma terminal_reals_length p g :
  length (terminal_reals p g) = Z.to_nat (num_simulations p).
Proof. unfold terminal_reals; rewrite length_map; apply fill_normal_length. Qed.

Lemma run_finite p g :
  (1 <= num_steps p)%Z -> (1 <= num_simulations p)%Z -> 0 <= T p ->
  let out := evaluate p (simulated p g) in
  let xs := terminal_reals p g in
  let N := Z.to_nat (num_simulations p) in
  S_T out = map Num xs /\
  option_price out =
    Num (Rmean (map (fun x => Rmax (x - K p) 0) xs) * exp (- r p * T p)) /\
  prob_profit out = Num (INR (count_above (K p) xs) / INR N * 100) /\
  prob_loss out = Num (100 - INR (count_above (K p) xs) / INR N * 100).
Proof.
  intros HM HN HT out xs N.
  assert (Hcol : last_column (simulated p g) = map Num xs)
    by (apply terminal_prices_finite; auto).
  split; [exact Hcol|].
  unfold N; rewrite <- (terminal_reals_length p g).
  apply evaluate_finite; auto.
  - intros Hnil; apply (f_equal (@length R)) in Hnil.
    unfold xs in Hnil; rewrite terminal_reals_length in Hnil.
    simpl in Hnil; lia.
  - rewrite terminal_reals_length; lia.
Qed.

(** ** Sums and means of reals *)

Lemma Rsum_map_le {A : Type} (f f' : A -> R) l :
  (forall x, In x l -> f x <= f' x) ->
  Rsum (map f l) <= Rsum (map f' l).
Proof.
  induction l as [|a l IH]; intros H; simpl; [lra|].
  pose proof (H a (or_introl eq_refl)).
  assert (Rsum (map f l) <= Rsum (map f' l))
    by (apply IH; intros x Hx; apply H; right; auto).
  lra.
Qed.

Lemma Rinv_length_nonneg {A : Type} (l : list A) : 0 <= / INR (length l).
Proof.
  destruct l as [|a l].
  - simpl; rewrite Rinv_0; lra.
  - apply Rlt_le, Rinv_0_lt_compat, lt_0_INR; simpl; lia.
Qed.

Lemma Rmean_map_le {A : Type} (f f' : A -> R) l :
  (forall x, In x l -> f x <= f' x) ->
  Rmean (map f l) <= Rmean (map f' l).
Proof.
  intros H; unfold Rmean, Rdiv; rewrite !length_map.
  apply Rmult_le_compat_r; [apply Rinv_length_nonneg|].
  apply Rsum_map_le; auto.
Qed.

Lemma Rsum_scale c xs : Rsum (map (fun x => c * x) xs) = c * Rsum xs.
Proof. induction xs as [|x xs IH]; simpl; [|rewrite IH]; lra. Qed.

Lemma Rmean_scale c xs : Rmean (map (fun x => c * x) xs) = c * Rmean xs.
Proof.
  unfold Rmean, Rdiv; rewrite length_map, Rsum_scale; ring.
Qed.

Lemma Rsum_shift k xs :
  Rsum (map (fun x => x - k) xs) = Rsum xs - INR (length xs) * k.
Proof.
  induction xs as [|x xs IH].
  - simpl; lra.
  - change (length (x :: xs)) with (S (length xs)); rewrite S_INR.
    simpl Rsum; rewrite IH; lra.
Qed.

Lemma Rmean_shift k xs :
  xs <> [] -> Rmean (map (fun x => x - k) xs) = Rmean xs - k.
Proof.
  intros Hxs; unfold Rmean; rewrite length_map, Rsum_shift.
  field; apply not_0_INR; destruct xs; simpl; congruence.
Qed.

Lemma Rsum_zero_iff xs :
  Forall (fun x => 0 <= x) xs ->
  (Rsum xs = 0 <-> Forall (fun x => x = 0) xs).
Proof.
  induction 1 as [|x xs Hx Hxs IH]; simpl.
  - split; auto.
  - pose proof (Rsum_nonneg xs Hxs).
    split.
    + intros Hsum; constructor; [lra | apply IH; lra].
    + intros Hall; inversion Hall as [|? ? H0 Hrest]; subst.
      apply IH in Hrest; lra.
Qed.

Lemma Rmean_zero_iff xs :
  xs <> [] -> Forall (fun x => 0 <= x) xs ->
  (Rmean xs = 0 <-> Forall (fun x => x = 0) xs).
Proof.
  intros Hxs Hpos; rewrite <- Rsum_zero_iff by auto.
  assert (Hlen : 0 < INR (length xs))
    by (apply lt_0_INR; destruct xs; simpl; [congruence | lia]).
  unfold Rmean; split; intros H.
  - apply (Rmult_eq_reg_r (/ INR (length xs))).
    + unfold Rdiv in H; rewrite H; ring.
    + apply Rinv_neq_0_compat; lra.
  - rewrite H; unfold Rdiv; ring.
Qed.

(** ** Payoffs and counts *)

Lemma call_payoff_zero_iff k x : Rmax (x - k) 0 = 0 <-> x <= k.
Proof.
  unfold Rmax; destruct (Rle_dec (x - k) 0); split; intros; lra.
Qed.

Lemma call_payoff_above k x : k < x -> Rmax (x - k) 0 = x - k.
Proof. intros H; unfold Rmax; destruct (Rle_dec (x - k) 0); lra. Qed.

Lemma call_payoff_mono k x y : x <= y -> Rmax (x - k) 0 <= Rmax (y - k) 0.
Proof. intros H; apply Rle_max_compat_r; lra. Qed.

Lemma call_payoff_scale c k x :
  0 <= c -> Rmax (c * x - c * k) 0 = c * Rmax (x - k) 0.
Proof.
  intros Hc; rewrite <- RmaxRmult by auto.
  f_equal; ring.
Qed.

Lemma count_above_none k xs :
  count_above k xs = 0%nat <-> Forall (fun x => x <= k) xs.
Proof.
  unfold count_above; induction xs as [|x xs IH]; simpl.
  - split; auto.
  - unfold Rltb at 1; destruct (Rlt_dec k x) as [Hlt|Hge]; simpl.
    + split; [discriminate|].
      intros Hall; inversion Hall; subst; lra.
    + rewrite IH; split.
      * intros Hall; constructor; [lra | auto].
      * intros Hall; inversion Hall; auto.
Qed.

Lemma count_above_all k xs :
  Forall (fun x => k < x) xs -> count_above k xs = length xs.
Proof.
  unfold count_above; induction 1 as [|x xs Hx _ IH]; simpl; auto.
  unfold Rltb at 1; destruct (Rlt_dec k x); [simpl; auto | contradiction].
Qed.

Lemma count_above_map_le {A : Type} (f f' : A -> R) k l :
  (forall x, In x l -> f x <= f' x) ->
  (count_above k (map f l) <= count_above k (map f' l))%nat.
Proof.
  unfold count_above; induction l as [|a l IH]; intros H; simpl; auto.
  pose proof (H a (or_introl eq_refl)) as Ha.
  assert (IH' := IH (fun x Hx => H x (or_intror Hx))).
  destruct (Rltb k (f a)) eqn:E1, (Rltb k (f' a)) eqn:E2; simpl; try lia.
  apply Rltb_true in E1.
  assert (Rltb k (f' a) = true) by (apply Rltb_true; lra).
  congruence.
Qed.

Lemma count_above_scale c k xs :
  0 < c -> count_above (c * k) (map (fun x => c * x) xs) = count_above k xs.
Proof.
  intros Hc; unfold count_above; induction xs as [|x xs IH]; simpl; auto.
  assert (E : Rltb (c * k) (c * x) = Rltb k x).
  { unfold Rltb; destruct (Rlt_dec (c * k) (c * x)), (Rlt_dec k x);
      auto; nra. }
  rewrite E; destruct (Rltb k x); simpl; auto.
Qed.

(** ** Paths over the reals *)

Lemma gbm_nonneg p dt zrow t : 0 <= S0 p -> 0 <= gbm p dt zrow t.
Proof.
  intros H0; induction t as [|t IH]; simpl; auto.
  apply Rmult_le_pos; [auto | apply Rlt_le, exp_pos].
Qed.

Lemma gbm_nonpos p dt zrow t : S0 p <= 0 -> gbm p dt zrow t <= 0.
Proof.
  intros H0; induction t as [|t IH]; simpl; auto.
  match goal with |- _ * exp ?a <= 0 => pose proof (exp_pos a) end.
  nra.
Qed.

Lemma gbm_zero_spot p dt zrow t : S0 p = 0 -> gbm p dt zrow t = 0.
Proof.
  intros H0; induction t as [|t IH]; simpl; auto.
  rewrite IH; ring.
Qed.

Lemma exp_le x y : x <= y -> exp x <= exp y.
Proof.
  intros [Hlt|Heq].
  - apply Rlt_le, exp_increasing; auto.
  - rewrite Heq; lra.
Qed.

Lemma gbm_mono p dt z1 z2 t :
  0 <= S0 p -> 0 <= sigma p -> 0 <= dt ->
  (forall j, (j < t)%nat -> nth j z1 0 <= nth j z2 0) ->
  gbm p dt z1 t <= gbm p dt z2 t.
Proof.
  intros H0 Hs Hdt; induction t as [|t IH]; intros H; simpl; [lra|].
  apply Rmult_le_compat.
  - apply gbm_nonneg; auto.
  - apply Rlt_le, exp_pos.
  - apply IH; intros j Hj; apply H; lia.
  - apply exp_le, Rplus_le_compat_l, Rmult_le_compat_l.
    + apply Rmult_le_pos; [auto | apply sqrt_pos].
    + apply H; lia.
Qed.

Lemma gbm_scale c p dt zrow t :
  gbm (scale_prices c p) dt zrow t = c * gbm p dt zrow t.
Proof.
  induction t as [|t IH]; simpl; auto.
  rewrite IH; ring.
Qed.

Lemma gbm_zero_step p zrow t : gbm p 0 zrow t = S0 p.
Proof.
  induction t as [|t IH]; simpl; auto.
  rewrite IH, sqrt_0.
  match goal with |- _ * exp ?a = _ => replace a with 0 by lra end.
  rewrite exp_0; ring.
Qed.

(** ** The terminal prices, path by path *)

Lemma terminal_reals_seq p g :
  terminal_reals p g =
    map (fun i =>
           gbm p (T p / IZR (num_steps p))
               (map (fun j => g (i * Z.to_nat (num_steps p) + j)%nat)
                    (seq 0 (Z.to_nat (num_steps p))))
               (Z.to_nat (num_steps p)))
        (seq 0 (Z.to_nat (num_simulations p))).
Proof. unfold terminal_reals, fill_normal; apply map_map. Qed.

Lemma nth_draws (g : rng) (i m j : nat) :
  (j < m)%nat ->
  nth j (map (fun j => g (i * m + j)%nat) (seq 0 m)) 0 = g (i * m + j)%nat.
Proof.
  intros Hj.
  rewrite (nth_indep _ 0 (g (i * m + 0)%nat))
    by (rewrite length_map, length_seq; lia).
  rewrite (map_nth (fun j => g (i * m + j)%nat)), seq_nth by lia.
  reflexivity.
Qed.

Lemma entry_simulated_finite p g i t :
  (1 <= num_steps p)%Z -> 0 <= T p ->
  (i < Z.to_nat (num_simulations p))%nat ->
  (t <= Z.to_nat (num_steps p))%nat ->
  entry (simulated p g) i t =
    Num (gbm p (T p / IZR (num_steps p))
             (nth i (fill_normal g (Z.to_nat (num_simulations p))
                                   (Z.to_nat (num_steps p))) [])
             t).
Proof.
  intros HM HT Hi Ht.
  rewrite entry_simulated by auto.
  apply price_path_finite, step_size_nonneg; auto.
Qed.

Lemma evaluate_no_win p S_ xs :
  last_column S_ = map Num xs -> xs <> [] ->
  num_simulations p = Z.of_nat (length xs) ->
  Forall (fun x => x <= K p) xs ->
  option_price (evaluate p S_) = Num 0 /\
  prob_profit (evaluate p S_) = Num 0 /\
  prob_loss (evaluate p S_) = Num 100.
Proof.
  intros Hcol Hxs HN Hall.
  destruct (evaluate_finite p S_ xs Hcol Hxs HN) as (Ho & Hp & Hl).
  rewrite Ho, Hp, Hl.
  apply count_above_none in Hall as Hc; rewrite Hc.
  assert (Hm : Rmean (map (fun x => Rmax (x - K p) 0) xs) = 0).
  { apply Rmean_zero_iff.
    - destruct xs; simpl; congruence.
    - apply call_payoffs_nonneg.
    - apply Forall_map; revert Hall; apply Forall_impl.
      intros x; apply call_payoff_zero_iff. }
  rewrite Hm; repeat split; f_equal; simpl; unfold Rdiv; ring.
Qed.

Lemma evaluate_all_win p S_ xs :
  last_column S_ = map Num xs -> xs <> [] ->
  num_simulations p = Z.of_nat (length xs) ->
  Forall (fun x => K p < x) xs ->
  prob_profit (evaluate p S_) = Num 100.
Proof.
  intros Hcol Hxs HN Hall.
  destruct (evaluate_finite p S_ xs Hcol Hxs HN) as (_ & Hp & _).
  rewrite Hp, count_above_all by auto.
  f_equal; field.
  apply not_0_INR; destruct xs; simpl; congruence.
Qed.

Lemma terminal_reals_nonempty p g :
  (1 <= num_simulations p)%Z -> terminal_reals p g <> [].
Proof.
  intros HN Hnil; apply (f_equal (@length R)) in Hnil.
  rewrite terminal_reals_length in Hnil; simpl in Hnil; lia.
Qed.

Lemma terminal_reals_scale c p g :
  terminal_reals (scale_prices c p) g =
    map (fun x => c * x) (terminal_reals p g).
Proof.
  unfold terminal_reals; simpl; rewrite map_map.
  apply map_ext; intros zrow; apply gbm_scale.
Qed.

(** ** The colouring loop *)

Lemma Rleb_true x y : Rleb x y = true <-> x <= y.
Proof.
  unfold Rleb; destruct (Rle_dec x y); split; auto; discriminate.
Qed.

Lemma colour_patches_length k bins patches :
  length (colour_patches k bins patches) = length patches.
Proof.
  unfold colour_patches.
  rewrite length_app, map2_length, length_skipn; lia.
Qed.

Lemma nth_colour_patches k bins patches j d :
  (j < length bins)%nat -> (j < length patches)%nat ->
  nth j (colour_patches k bins patches) d =
    colour_patch k (nth j bins NaN) (nth j patches d).
Proof.
  intros Hb Hp; unfold colour_patches.
  rewrite app_nth1 by (rewrite map2_length; lia).
  apply nth_map2; auto.
Qed.

Lemma map2_spare_left {A B C : Type} (f : A -> B -> C) xs extra ys :
  (length ys <= length xs)%nat ->
  map2 f (xs ++ extra) ys = map2 f xs ys.
Proof.
  revert ys; induction xs as [|x xs IH]; intros [|y ys] H; simpl in *;
    try lia; auto.
  - destruct extra; reflexivity.
  - rewrite IH by lia; reflexivity.
Qed.

Lemma colour_patch_green k x pt :
  facecolor (colour_patch k (Num x) pt) = forestgreen <-> k <= x.
Proof.
  unfold colour_patch; simpl fge; rewrite <- Rleb_true.
  destruct (Rleb k x); simpl; split; auto; discriminate.
Qed.

Lemma colour_patch_red k x pt :
  facecolor (colour_patch k (Num x) pt) = firebrick <-> x < k.
Proof.
  unfold colour_patch; simpl fge.
  destruct (Rleb k x) eqn:E; simpl; split; auto; try discriminate.
  - apply Rleb_true in E; lra.
  - intros _.
    destruct (Rlt_dec x k) as [Hlt|Hge]; auto.
    assert (Rleb k x = true) by (apply Rleb_true; lra); congruence.
Qed.

Lemma colour_patch_alpha k b pt : alpha (colour_patch k b pt) = Some 0.7.
Proof. unfold colour_patch; destruct (fge b (Num k)); reflexivity. Qed.

(** ** Transposed slices *)

Lemma nth_np_transpose w rows t :
  (t < w)%nat -> nth t (np_transpose w rows) [] = column (Num 0) t rows.
Proof.
  intros Ht; unfold np_transpose.
  rewrite (nth_indep _ [] (column (Num 0) 0 rows))
    by (rewrite length_map, length_seq; auto).
  rewrite (map_nth (fun t => column (Num 0) t rows)), seq_nth by auto.
  reflexivity.
Qed.

Lemma entry_np_transpose w rows t j :
  (t < w)%nat -> entry (np_transpose w rows) t j = entry rows j t.
Proof.
  intros Ht; unfold entry.
  rewrite nth_np_transpose by auto.
  apply nth_column.
Qed.

Lemma np_transpose_shaped w rows :
  shaped w (length rows) (np_transpose w rows).
Proof.
  split.
  - unfold np_transpose; rewrite length_map, length_seq; reflexivity.
  - intros t Ht; rewrite nth_np_transpose by auto.
    apply column_length.
Qed.

(** ** Moving the strike *)

Lemma count_above_strike_le k k' xs :
  k <= k' -> (count_above k' xs <= count_above k xs)%nat.
Proof.
  intros Hk; unfold count_above; induction xs as [|x xs IH]; simpl; auto.
  destruct (Rltb k' x) eqn:E1, (Rltb k x) eqn:E2; simpl; try lia.
  apply Rltb_true in E1.
  assert (Rltb k x = true) by (apply Rltb_true; lra).
  congruence.
Qed.

Lemma call_payoff_strike_le k k' x :
  k <= k' -> Rmax (x - k') 0 <= Rmax (x - k) 0.
Proof. intros Hk; apply Rle_max_compat_r; lra. Qed.

Lemma call_payoff_strike_gap k k' x :
  k <= k' -> Rmax (x - k) 0 <= Rmax (x - k') 0 - (k - k').
Proof.
  intros Hk; unfold Rmax.
  destruct (Rle_dec (x - k) 0), (Rle_dec (x - k') 0); lra.
Qed.

(** ** How a run ends *)

Lemma main_returns_inv p g out :
  main p g = Ok out ->
  (1 <= num_steps p)%Z /\ (0 <= num_simulations p)%Z /\
  out = evaluate p (simulated p g).
Proof.
  intros H.
  assert (HM : (1 <= num_steps p)%Z /\ (0 <= num_simulations p)%Z).
  { revert H; unfold main, py_div, standard_normal.
    destruct (Z.eqb_spec (num_steps p) 0); simpl; [discriminate|].
    destruct (Z.ltb_spec (num_simulations p) 0); simpl; [discriminate|].
    destruct (Z.ltb_spec (num_steps p) 0); simpl; [discriminate|].
    intros _; lia. }
  destruct HM as [HM HN]; split; [auto|]; split; [auto|].
  rewrite main_runs in H by auto; congruence.
Qed.

Lemma main_no_step p g :
  num_steps p = 0%Z -> main p g = Raise ZeroDivisionError.
Proof.
  intros HM; unfold main, py_div; rewrite HM; reflexivity.
Qed.

Lemma main_negative_dimension p g :
  num_steps p <> 0%Z ->
  (num_steps p < 0)%Z \/ (num_simulations p < 0)%Z ->
  main p g = Raise ValueError.
Proof.
  intros HM Hneg; unfold main, py_div, standard_normal.
  destruct (Z.eqb_spec (num_steps p) 0); [contradiction|]; simpl.
  destruct (Z.ltb_spec (num_simulations p) 0); [reflexivity|].
  destruct (Z.ltb_spec (num_steps p) 0); [reflexivity | lia].
Qed.

(** ** Option prices that are no number *)

Lemma option_price_negative_horizon p g :
  T p < 0 -> (1 <= num_steps p)%Z -> (1 <= num_simulations p)%Z ->
  option_price (evaluate p (simulated p g)) = NaN.
Proof.
  intros HT HM HN.
  assert (Hdt : T p / IZR (num_steps p) < 0)
    by (apply step_size_negative; auto).
  assert (Hsteps : Z.to_nat (num_steps p) = S (pred (Z.to_nat (num_steps p))))
    by lia.
  unfold evaluate; simpl option_price.
  rewrite terminal_prices by auto.
  rewrite Hsteps.
  rewrite (map_ext _ (fun _ => NaN))
    by (intros zrow; apply price_path_negative_step; auto).
  rewrite map_const, fill_normal_length.
  unfold eval_option_price, np_mean, eval_payoffs.
  rewrite map_repeat, np_sum_NaN by lia; reflexivity.
Qed.

Lemma option_price_no_path p g :
  num_simulations p = 0%Z ->
  option_price (evaluate p (simulated p g)) = NaN.
Proof.
  intros HN.
  unfold simulated; rewrite paths_after_no_path by auto.
  unfold evaluate; simpl.
  unfold eval_option_price, np_mean, np_sum; simpl.
  unfold Rzerob; destruct (Req_dec_T 0 0) as [_|Hne];
    [reflexivity | contradiction Hne; reflexivity].
Qed.

(** ** Volatilities whose square is a binary64 number *)

Lemma small_volatility x : Rabs x <= 1 -> Rabs x <= 10 ^ 154.
Proof.
  intros H; apply Rle_trans with 1; [auto | apply pow_R1_Rle; lra].
Qed.

(** * The properties *)

(** C1.  For parameters that reach the loop ([num_steps >= 1],
    [num_simulations >= 0]) the run returns, the matrix has
    [num_simulations] rows of [num_steps + 1] prices, and for every path [i]
    and every step [t] from 1 to [num_steps] the price at [t] is the price
    at [t-1] times [np.exp(drift + diffusion)] for the draw [Z[i, t-1]],
    which is draw number [i * num_steps + (t-1)] of the stream;
    when [T >= 0] all of these are finite and
    [S[i,t] = S[i,t-1] * exp((r - 0.5*sigma^2)*dt + sigma*sqrt(dt)*Z[i,t-1])]:
    the exact solution of GBM over the step. *)
Theorem path_update_exact (p : Params) (g : rng) :
  (1 <= num_steps p)%Z -> (0 <= num_simulations p)%Z ->
  let N := Z.to_nat (num_simulations p) in
  let M := Z.to_nat (num_steps p) in
  let dt := T p / IZR (num_steps p) in
  exists Z g' out,
    standard_normal g (num_simulations p) (num_steps p) = Ok (Z, g') /\
    main p g = Ok out /\
    shaped N (S M) (S_paths out) /\
    forall i t, (i < N)%nat -> (1 <= t <= M)%nat ->
      shock Z i (t - 1) = g (i * M + (t - 1))%nat /\
      entry (S_paths out) i t =
        fmul (entry (S_paths out) i (t - 1))
             (growth p dt (shock Z i (t - 1))) /\
      (0 <= T p ->
       exists prev,
         entry (S_paths out) i (t - 1) = Num prev /\
         entry (S_paths out) i t =
           Num (prev * exp ((r p - 0.5 * sigma p ^ 2) * dt
                            + sigma p * sqrt dt * shock Z i (t - 1)))).
Proof.
  intros HM HN N M dt.
  exists (fill_normal g N M), (fun k => g (N * M + k)%nat),
    (evaluate p (simulated p g)).
  split; [apply standard_normal_ok; lia|].
  split; [apply main_runs; auto|].
  split; [apply simulated_shaped; auto|].
  intros i t Hi Ht; simpl S_paths.
  destruct t as [|t]; [lia|].
  replace (S t - 1)%nat with t by lia.
  split; [apply shock_fill_normal; lia|].
  rewrite !entry_simulated by (auto; lia).
  split; [reflexivity|].
  intros HT.
  assert (Hdt : 0 <= dt) by (apply step_size_nonneg; auto).
  exists (gbm p dt (nth i (fill_normal g N M) []) t).
  rewrite !price_path_finite by auto.
  split; reflexivity.
Qed.

Lemma path_update_exact_witness :
  let N := Z.to_nat 10000 in
  let M := Z.to_nat 252 in
  exists Z g' out,
    standard_normal alternating 10000 252 = Ok (Z, g') /\
    main script_params alternating = Ok out /\
    shaped N (S M) (S_paths out) /\
    forall i t, (i < N)%nat -> (1 <= t <= M)%nat ->
      shock Z i (t - 1) = alternating (i * M + (t - 1))%nat /\
      entry (S_paths out) i t =
        fmul (entry (S_paths out) i (t - 1))
             (growth script_params (1.0 / 252) (shock Z i (t - 1))) /\
      (0 <= 1.0 ->
       exists prev,
         entry (S_paths out) i (t - 1) = Num prev /\
         entry (S_paths out) i t =
           Num (prev * exp ((0.041 - 0.5 * 0.28 ^ 2) * (1.0 / 252)
                            + 0.28 * sqrt (1.0 / 252) * shock Z i (t - 1)))).
Proof.
  apply (path_update_exact script_params alternating); simpl; lia.
Defined.

(** C4, as stated, fails on binary64: with the script's spot price, no
    volatility and a rate of -1000, one path of one step, the factor
    [np.exp(-1000.0)] underflows to 0.0 and the price after the step is
    0.0, which is not strictly positive. *)
Lemma price_underflows_to_zero :
  exists out,
    Binary64.main Binary64.collapsing_params Binary64.halves
      = Binary64.Returns out /\
    PrimFloat.ltb PrimFloat.zero (Binary64.S0 Binary64.collapsing_params)
      = true /\
    nth 1 (nth 0 (Binary64.S_paths out) []) PrimFloat.one = PrimFloat.zero /\
    PrimFloat.ltb PrimFloat.zero
      (nth 1 (nth 0 (Binary64.S_paths out) []) PrimFloat.one) = false.
Proof.
  eexists.
  split; [vm_compute; reflexivity|].
  split; [vm_compute; reflexivity|].
  split; vm_compute; reflexivity.
Qed.

(** C4, amended.  In exact real arithmetic, given [S0 > 0] (and parameters
    of the data model: at least one step, a horizon that is not negative),
    whatever the shocks drawn, every entry of the [num_simulations] x
    [num_steps + 1] matrix the run returns is a finite, strictly positive
    price.  It is an invariant of the loop: after [k] iterations the
    columns [0..k] are strictly positive, and one update step makes column
    [t] strictly positive when column [t-1] is. *)
Theorem paths_strictly_positive (p : Params) (g : rng) :
  0 < S0 p ->
  (1 <= num_steps p)%Z -> (0 <= num_simulations p)%Z -> 0 <= T p ->
  let N := Z.to_nat (num_simulations p) in
  let M := Z.to_nat (num_steps p) in
  let dt := T p / IZR (num_steps p) in
  let Z := fill_normal g N M in
  exists out,
    main p g = Ok out /\
    shaped N (S M) (S_paths out) /\
    (forall i t, (i < N)%nat -> (t <= M)%nat ->
       exists x, entry (S_paths out) i t = Num x /\ 0 < x) /\
    (forall k i t, (k <= M)%nat -> (i < N)%nat -> (t <= k)%nat ->
       exists x, entry (paths_after p dt Z k) i t = Num x /\ 0 < x) /\
    (forall S_ t, shaped N (S M) S_ -> (1 <= t <= M)%nat ->
       (forall i, (i < N)%nat ->
          exists x, entry S_ i (t - 1) = Num x /\ 0 < x) ->
       forall i, (i < N)%nat ->
         exists y, entry (path_step p dt Z S_ t) i t = Num y /\ 0 < y).
Proof.
  intros H0 HM HN HT N M dt Z.
  assert (Hdt : 0 <= dt) by (apply step_size_nonneg; auto).
  exists (evaluate p (simulated p g)).
  split; [apply main_runs; auto|].
  split; [apply simulated_shaped; auto|].
  simpl S_paths; repeat split.
  - intros i t Hi Ht.
    rewrite entry_simulated, price_path_finite by auto.
    eauto using gbm_pos.
  - intros k i t Hk Hi Ht.
    unfold Z, N, M, dt; rewrite entry_paths_prefix by auto.
    destruct (Nat.leb_spec t k); [|lia].
    rewrite price_path_finite by auto.
    eauto using gbm_pos.
  - intros S_ t HS Ht Hprev i Hi.
    rewrite (entry_path_step p dt Z N (S M) (fill_normal_length g N M))
      by (auto; lia).
    rewrite Nat.eqb_refl.
    destruct (Hprev i Hi) as (x & -> & Hx).
    rewrite growth_finite by auto.
    eexists; split; [reflexivity|].
    apply Rmult_lt_0_compat; auto using exp_pos.
Qed.

Lemma paths_strictly_positive_witness :
  let N := Z.to_nat 10000 in
  let M := Z.to_nat 252 in
  let dt := 1.0 / 252 in
  let Z := fill_normal alternating N M in
  exists out,
    main script_params alternating = Ok out /\
    shaped N (S M) (S_paths out) /\
    (forall i t, (i < N)%nat -> (t <= M)%nat ->
       exists x, entry (S_paths out) i t = Num x /\ 0 < x) /\
    (forall k i t, (k <= M)%nat -> (i < N)%nat -> (t <= k)%nat ->
       exists x, entry (paths_after script_params dt Z k) i t = Num x /\ 0 < x) /\
    (forall S_ t, shaped N (S M) S_ -> (1 <= t <= M)%nat ->
       (forall i, (i < N)%nat ->
          exists x, entry S_ i (t - 1) = Num x /\ 0 < x) ->
       forall i, (i < N)%nat ->
         exists y,
           entry (path_step script_params dt Z S_ t) i t = Num y /\ 0 < y).
Proof.
  apply (paths_strictly_positive script_params alternating); simpl;
    try lia; lra.
Defined.

(** C7.  For parameters of the data model and every path [i], column 0 of
    the matrix the run returns is [S0] itself, and it is [S0] after every
    number [k] of iterations of the loop: no update step touches it. *)
Theorem first_column_is_S0 (p : Params) (g : rng) :
  (1 <= num_steps p)%Z -> (0 <= num_simulations p)%Z ->
  let N := Z.to_nat (num_simulations p) in
  let M := Z.to_nat (num_steps p) in
  let dt := T p / IZR (num_steps p) in
  let Z := fill_normal g N M in
  exists out,
    main p g = Ok out /\
    (forall i, (i < N)%nat -> entry (S_paths out) i 0 = Num (S0 p)) /\
    (forall k i, (k <= M)%nat -> (i < N)%nat ->
       entry (paths_after p dt Z k) i 0 = Num (S0 p)) /\
    (forall S_ t i j, shaped N (S M) S_ -> (1 <= t <= M)%nat ->
       (i < N)%nat -> j <> t ->
       entry (path_step p dt Z S_ t) i j = entry S_ i j).
Proof.
  intros HM HN N M dt Z.
  exists (evaluate p (simulated p g)).
  split; [apply main_runs; auto|].
  simpl S_paths; repeat split.
  - intros i Hi; rewrite entry_simulated by (auto; lia); reflexivity.
  - intros k i Hk Hi.
    unfold Z, N, M, dt; rewrite entry_paths_prefix by auto; reflexivity.
  - intros S_ t i j HS Ht Hi Hj.
    rewrite (entry_path_step p dt Z N (S M) (fill_normal_length g N M))
      by (auto; lia).
    destruct (Nat.eqb_spec j t); [contradiction | reflexivity].
Qed.

Lemma first_column_is_S0_witness :
  let N := Z.to_nat 10000 in
  let M := Z.to_nat 252 in
  let dt := 1.0 / 252 in
  let Z := fill_normal alternating N M in
  exists out,
    main script_params alternating = Ok out /\
    (forall i, (i < N)%nat -> entry (S_paths out) i 0 = Num 255.78) /\
    (forall k i, (k <= M)%nat -> (i < N)%nat ->
       entry (paths_after script_params dt Z k) i 0 = Num 255.78) /\
    (forall S_ t i j, shaped N (S M) S_ -> (1 <= t <= M)%nat ->
       (i < N)%nat -> j <> t ->
       entry (path_step script_params dt Z S_ t) i j = entry S_ i j).
Proof.
  apply (first_column_is_S0 script_params alternating); simpl; lia.
Defined.

(** C8.  For every vector of terminal prices, the last column of the
    price matrix, and every strike, the payoff the evaluator computes for
    each path is [max(terminal - K, 0)] of that path's terminal price, so
    every payoff is greater than or equal to 0. *)
Theorem payoffs_are_call_payoffs (p : Params) (S_ : matrix) (xs : list R) :
  last_column S_ = map Num xs ->
  payoffs (evaluate p S_) = map (fun x => Num (Rmax (x - K p) 0)) xs /\
  Forall (fun v => exists y, v = Num y /\ 0 <= y) (payoffs (evaluate p S_)).
Proof.
  intros Hcol.
  assert (H : payoffs (evaluate p S_) =
              map (fun x => Num (Rmax (x - K p) 0)) xs).
  { unfold evaluate; simpl; rewrite Hcol.
    rewrite eval_payoffs_reals, map_map; reflexivity. }
  split; [exact H|].
  rewrite H; apply Forall_map, Forall_forall; intros x _.
  eexists; split; [reflexivity | apply Rmax_r].
Qed.

Lemma payoffs_are_call_payoffs_witness :
  payoffs (evaluate three_paths_params three_paths) =
    map (fun x => Num (Rmax (x - K three_paths_params) 0)) [300; 250; 265] /\
  Forall (fun v => exists y, v = Num y /\ 0 <= y)
         (payoffs (evaluate three_paths_params three_paths)).
Proof.
  apply (payoffs_are_call_payoffs three_paths_params three_paths
           [300; 250; 265]).
  reflexivity.
Defined.

(** C2.  The option price the evaluator reports is the mean of the payoffs
    it reports times [exp(-r*T)]; for every non-empty vector [xs] of
    terminal prices and all [r], [T], [K] it is the arithmetic mean of
    [max(x - K, 0)] over [xs], multiplied by [exp(-r*T)]. *)
Theorem option_price_is_discounted_mean
  (p : Params) (S_ : matrix) (xs : list R) :
  last_column S_ = map Num xs -> xs <> [] ->
  let out := evaluate p S_ in
  option_price out =
    fmul (np_mean (payoffs out)) (np_exp (Num (- r p * T p))) /\
  payoffs out = map Num (map (fun x => Rmax (x - K p) 0) xs) /\
  option_price out =
    Num (Rmean (map (fun x => Rmax (x - K p) 0) xs) * exp (- r p * T p)).
Proof.
  intros Hcol Hxs out; split; [reflexivity|].
  unfold out, evaluate; simpl; rewrite Hcol.
  split; [apply eval_payoffs_reals | apply option_price_reals; auto].
Qed.

Lemma option_price_is_discounted_mean_witness :
  let out := evaluate three_paths_params three_paths in
  option_price out =
    fmul (np_mean (payoffs out)) (np_exp (Num (- r three_paths_params * T three_paths_params))) /\
  payoffs out =
    map Num (map (fun x => Rmax (x - 265.00) 0) [300; 250; 265]) /\
  option_price out =
    Num (Rmean (map (fun x => Rmax (x - 265.00) 0) [300; 250; 265])
         * exp (- r three_paths_params * T three_paths_params)).
Proof.
  apply (option_price_is_discounted_mean three_paths_params three_paths
           [300; 250; 265]).
  - reflexivity.
  - discriminate.
Defined.

(** C5.  For every non-empty vector of terminal prices, the last column of
    the price matrix, with [num_simulations] its length: the probability
    of profit is the number of its entries strictly above [K] (an entry
    equal to [K] does not count), over [num_simulations], times 100; the
    probability of loss is 100 minus it; and the two add up to 100. *)
Theorem profit_and_loss_probabilities (p : Params) (S_ : matrix) :
  last_column S_ <> [] ->
  num_simulations p = Z.of_nat (length (last_column S_)) ->
  let out := evaluate p S_ in
  let profit :=
    INR (count_gt (Num (K p)) (last_column S_))
    / INR (length (last_column S_)) * 100 in
  prob_profit out = Num profit /\
  prob_loss out = Num (100 - profit) /\
  fadd (prob_profit out) (prob_loss out) = Num 100 /\
  (forall x, fgt (Num x) (Num (K p)) = true <-> K p < x) /\
  (forall xs, count_gt (Num (K p)) (map Num xs) =
              length (filter (fun x => Rltb (K p) x) xs)).
Proof.
  intros Hne HN out profit.
  assert (Hp : prob_profit out = Num profit).
  { unfold out, profit, evaluate; simpl.
    unfold eval_prob_profit; rewrite HN, <- INR_IZR_INZ.
    rewrite fdiv_finite; [reflexivity|].
    apply not_0_INR; destruct (last_column S_); simpl; congruence. }
  split; [exact Hp|].
  assert (Hl : prob_loss out = Num (100 - profit)).
  { change (prob_loss out) with (eval_prob_loss (prob_profit out)).
    rewrite Hp; reflexivity. }
  split; [exact Hl|].
  split; [rewrite Hp, Hl; simpl; f_equal; lra|].
  split; [intros x; apply Rltb_true|].
  intros xs; unfold count_gt; induction xs as [|x xs IH]; simpl; auto.
  destruct (Rltb (K p) x); simpl; auto; congruence.
Qed.

Lemma profit_and_loss_probabilities_witness :
  let out := evaluate three_paths_params three_paths in
  let profit :=
    INR (count_gt (Num 265.00) (last_column three_paths))
    / INR (length (last_column three_paths)) * 100 in
  prob_profit out = Num profit /\
  prob_loss out = Num (100 - profit) /\
  fadd (prob_profit out) (prob_loss out) = Num 100 /\
  (forall x, fgt (Num x) (Num 265.00) = true <-> 265.00 < x) /\
  (forall xs, count_gt (Num 265.00) (map Num xs) =
              length (filter (fun x => Rltb 265.00 x) xs)).
Proof.
  apply (profit_and_loss_probabilities three_paths_params three_paths).
  - discriminate.
  - reflexivity.
Defined.

(** C10, as stated, fails: with the script's parameters and a negative
    horizon the run returns and the option price it reports is NaN, which
    is not greater than or equal to 0. *)
Lemma negative_horizon_price_is_nan :
  exists out,
    main negative_horizon_params alternating = Ok out /\
    option_price out = NaN.
Proof.
  exists (evaluate negative_horizon_params
            (simulated negative_horizon_params alternating)).
  split.
  - apply main_runs; simpl; lia.
  - apply option_price_negative_horizon; simpl; try lia; lra.
Qed.

(** C10, amended.  The option price is never negative, for every shock
    matrix and all parameters: whenever the run returns (it does for at
    least one step and no negative number of paths), the option price is a
    number greater than or equal to 0, or it is NaN. *)
Theorem option_price_never_negative (p : Params) (g : rng) :
  ((1 <= num_steps p)%Z -> (0 <= num_simulations p)%Z ->
   exists out, main p g = Ok out) /\
  (forall out, main p g = Ok out -> never_negative (option_price out)).
Proof.
  split.
  - intros HM HN; eexists; apply main_runs; auto.
  - intros out Hout.
    apply main_returns_inv in Hout as (HM & HN & ->).
    destruct (Z.eq_dec (num_simulations p) 0) as [H0|H0].
    + rewrite option_price_no_path by auto; exact I.
    + destruct (Rlt_dec (T p) 0) as [HT|HT].
      * rewrite option_price_negative_horizon by (auto; lia); exact I.
      * assert (HT' : 0 <= T p) by lra.
        assert (HN' : (1 <= num_simulations p)%Z) by lia.
        destruct (run_finite p g HM HN' HT') as (_ & Ho & _).
        rewrite Ho; simpl.
        apply Rmult_le_pos; [|apply Rlt_le, exp_pos].
        apply Rmean_nonneg, call_payoffs_nonneg.
Qed.

Lemma option_price_never_negative_witness :
  (exists out, main script_params alternating = Ok out) /\
  (forall out, main script_params alternating = Ok out ->
     never_negative (option_price out)).
Proof.
  destruct (option_price_never_negative script_params alternating)
    as [Hrun Hprice].
  split; [apply Hrun; simpl; lia | exact Hprice].
Defined.

(** X18.  In exact real arithmetic, for parameters of the data model (at
    least one step and one path, a horizon that is not negative) and
    whatever the shocks drawn, the run returns and the option price it
    reports is a finite number greater than or equal to 0. *)
Theorem option_price_nonneg (p : Params) (g : rng) :
  (1 <= num_steps p)%Z -> (1 <= num_simulations p)%Z -> 0 <= T p ->
  exists out x,
    main p g = Ok out /\ option_price out = Num x /\ 0 <= x.
Proof.
  intros HM HN HT.
  exists (evaluate p (simulated p g)); eexists.
  split; [apply main_runs; lia|].
  unfold evaluate; simpl option_price.
  rewrite terminal_prices_finite by auto.
  rewrite option_price_reals.
  - split; [reflexivity|].
    apply Rmult_le_pos; [|apply Rlt_le, exp_pos].
    apply Rmean_nonneg, call_payoffs_nonneg.
  - intros Hnil; apply (f_equal (@length R)) in Hnil.
    rewrite length_map, fill_normal_length in Hnil; simpl in Hnil; lia.
Qed.

Lemma option_price_nonneg_witness :
  exists out x,
    main script_params alternating = Ok out /\
    option_price out = Num x /\ 0 <= x.
Proof.
  apply (option_price_nonneg script_params alternating); simpl;
    try lia; lra.
Defined.

(** C6, as stated, fails on binary64: with the script's spot price, a
    strike of 200, no volatility, no interest and five paths of one step,
    every terminal price is [S0] and the price the claim names is
    [S0 - K] = 55.78, but the mean of the five equal payoffs rounds and
    the option price reported is 55.779999999999994. *)
Lemma mean_of_equal_payoffs_rounds :
  exists out claimed,
    Binary64.main Binary64.becalmed_params Binary64.halves
      = Binary64.Returns out /\
    Binary64.S_T out = repeat (Binary64.S0 Binary64.becalmed_params) 5 /\
    Binary64.drift_only_price Binary64.becalmed_params
      = Binary64.Returns claimed /\
    PrimFloat.eqb (Binary64.option_price out) claimed = false /\
    PrimFloat.ltb (Binary64.option_price out) claimed = true.
Proof.
  do 2 eexists.
  split; [vm_compute; reflexivity|].
  split; [vm_compute; reflexivity|].
  split; [vm_compute; reflexivity|].
  split; vm_compute; reflexivity.
Qed.

(** C6, amended.  In exact real arithmetic, with [sigma = 0] (and at least
    one step and one path, a horizon that is not negative), whatever the
    shocks drawn: the terminal price of every path is [S0 * exp(r*T)], and
    the option price reported is [max(S0*exp(r*T) - K, 0) * exp(-r*T)]. *)
Theorem zero_volatility_is_deterministic (p : Params) (g : rng) :
  sigma p = 0 ->
  (1 <= num_steps p)%Z -> (1 <= num_simulations p)%Z -> 0 <= T p ->
  let N := Z.to_nat (num_simulations p) in
  let M := Z.to_nat (num_steps p) in
  exists out,
    main p g = Ok out /\
    (forall i, (i < N)%nat ->
       entry (S_paths out) i M = Num (S0 p * exp (r p * T p))) /\
    S_T out = repeat (Num (S0 p * exp (r p * T p))) N /\
    option_price out =
      Num (Rmax (S0 p * exp (r p * T p) - K p) 0 * exp (- r p * T p)).
Proof.
  intros Hs HM HN HT N M.
  assert (Hdt : 0 <= T p / IZR (num_steps p))
    by (apply step_size_nonneg; auto).
  assert (Hterm : last_column (simulated p g) =
                  map Num (repeat (S0 p * exp (r p * T p)) N)).
  { rewrite terminal_prices_finite by auto; f_equal.
    rewrite (map_ext _ (fun _ => S0 p * exp (r p * T p)))
      by (intros zrow; apply gbm_drift_only_terminal; auto).
    rewrite map_const, fill_normal_length; reflexivity. }
  exists (evaluate p (simulated p g)).
  split; [apply main_runs; lia|].
  unfold evaluate; simpl S_paths; simpl S_T; simpl option_price.
  split; [|split].
  - intros i Hi.
    rewrite entry_simulated, price_path_finite by (auto; lia).
    f_equal; apply gbm_drift_only_terminal; auto.
  - rewrite Hterm; apply map_repeat.
  - rewrite Hterm, option_price_reals.
    + rewrite map_repeat, Rmean_constant by (unfold N; lia); reflexivity.
    + intros Hnil; apply (f_equal (@length R)) in Hnil.
      rewrite repeat_length in Hnil; simpl in Hnil; unfold N in Hnil; lia.
Qed.

Lemma zero_volatility_is_deterministic_witness :
  let p := drift_only_params in
  let N := Z.to_nat 10000 in
  let M := Z.to_nat 252 in
  exists out,
    main p alternating = Ok out /\
    (forall i, (i < N)%nat ->
       entry (S_paths out) i M = Num (S0 p * exp (r p * T p))) /\
    S_T out = repeat (Num (S0 p * exp (r p * T p))) N /\
    option_price out =
      Num (Rmax (S0 p * exp (r p * T p) - K p) 0 * exp (- r p * T p)).
Proof.
  apply (zero_volatility_is_deterministic drift_only_params alternating);
    simpl; try lia; lra.
Defined.

(** C3, as the specification states it, fails: with the script's
    parameters and a negative spot price, an invalid assignment, the run
    raises nothing and returns its outputs. *)
Lemma negative_spot_is_not_rejected :
  invalid_params negative_spot_params /\
  ~ fails_fast negative_spot_params alternating.
Proof.
  split.
  - left; simpl; lra.
  - intros [e He].
    rewrite main_runs in He by (simpl; lia).
    discriminate.
Qed.

(** C3, amended.  The script validates no parameter, so an invalid
    assignment stops the run only where Python or numpy fails on it, with
    an error of theirs: [ZeroDivisionError] when [num_steps = 0] (from
    [T / num_steps]), and numpy's [ValueError] for a negative dimension
    when [num_steps] or [num_simulations] is negative (counts of moderate
    size), the same error whichever of the two is negative.  The other
    invalid assignments are not rejected: with the script's 252 steps, its
    10000 paths or no path at all, and a volatility of magnitude at most
    1e154, the run returns its outputs whatever [S0], [K] and [T] are, so
    also for a non-positive [S0], [K] or [T] and a negative [sigma]. *)
Theorem invalid_parameters_are_not_validated (g : rng) :
  (forall p, num_steps p = 0%Z -> main p g = Raise ZeroDivisionError) /\
  (forall p,
     moderate_count (num_steps p) -> moderate_count (num_simulations p) ->
     num_steps p <> 0%Z ->
     (num_steps p < 0)%Z \/ (num_simulations p < 0)%Z ->
     main p g = Raise ValueError) /\
  (forall p,
     num_steps p = 252%Z ->
     num_simulations p = 10000%Z \/ num_simulations p = 0%Z ->
     Rabs (sigma p) <= 10 ^ 154 ->
     exists out, main p g = Ok out).
Proof.
  split; [|split].
  - intros p HM; apply main_no_step; auto.
  - intros p _ _ HM Hneg; apply main_negative_dimension; auto.
  - intros p HM HN _; eexists; apply main_runs; lia.
Qed.

Lemma invalid_parameters_are_not_validated_witness :
  main no_step_params alternating = Raise ZeroDivisionError /\
  main negative_steps_params alternating = Raise ValueError /\
  main negative_paths_params alternating = Raise ValueError /\
  (exists out, main negative_spot_params alternating = Ok out).
Proof.
  destruct (invalid_parameters_are_not_validated alternating)
    as (Hzero & Hneg & Hrun).
  split; [apply Hzero; reflexivity|].
  split; [apply Hneg; unfold moderate_count; simpl; lia|].
  split; [apply Hneg; unfold moderate_count; simpl; lia|].
  apply Hrun; [reflexivity | left; reflexivity|].
  apply small_volatility; simpl sigma.
  unfold Rabs; destruct (Rcase_abs 0.28); lra.
Defined.

(** * Further properties of the script *)



(** X2.  A run without paths is not rejected either: with
    [num_simulations = 0] (and at least one step) the run returns an empty
    matrix and reports NaN for the option price ([np.mean] of an empty
    vector) and for both probabilities (0/0). *)
Theorem no_path_reports_nan (p : Params) (g : rng) :
  num_simulations p = 0%Z -> (1 <= num_steps p)%Z ->
  exists out,
    main p g = Ok out /\
    S_paths out = [] /\
    option_price out = NaN /\
    prob_profit out = NaN /\
    prob_loss out = NaN.
Proof.
  intros HN HM.
  exists (evaluate p (simulated p g)).
  split; [apply main_runs; lia|].
  unfold simulated; rewrite paths_after_no_path by auto.
  unfold evaluate; simpl.
  unfold eval_option_price, eval_prob_profit, np_mean, np_sum, count_gt.
  rewrite HN; simpl.
  unfold Rzerob; destruct (Req_dec_T 0 0) as [_|Hne];
    [repeat split | contradiction Hne; reflexivity].
Qed.

Lemma no_path_reports_nan_witness :
  exists out,
    main no_path_params alternating = Ok out /\
    S_paths out = [] /\
    option_price out = NaN /\
    prob_profit out = NaN /\
    prob_loss out = NaN.
Proof.
  apply (no_path_reports_nan no_path_params alternating); simpl;
    [reflexivity | lia].
Defined.

(** X3.  No discretisation error accumulates: for parameters of the data
    model (at least one step, a horizon that is not negative) the price of
    path [i] at step [t] is
    [S0 * exp((r - 0.5*sigma^2)*dt*t + sigma*sqrt(dt)*(Z[i,0] + ... + Z[i,t-1]))],
    the closed form of GBM at time [t*dt]. *)
Theorem price_is_gbm_closed_form (p : Params) (g : rng) :
  (1 <= num_steps p)%Z -> (0 <= num_simulations p)%Z -> 0 <= T p ->
  let N := Z.to_nat (num_simulations p) in
  let M := Z.to_nat (num_steps p) in
  let dt := T p / IZR (num_steps p) in
  let Z := fill_normal g N M in
  exists out,
    main p g = Ok out /\
    forall i t, (i < N)%nat -> (t <= M)%nat ->
      entry (S_paths out) i t =
        Num (S0 p * exp ((r p - 0.5 * sigma p ^ 2) * dt * INR t
                         + sigma p * sqrt dt
                           * Rsum (firstn t (nth i Z [])))).
Proof.
  intros HM HN HT N M dt Z.
  exists (evaluate p (simulated p g)).
  split; [apply main_runs; auto|].
  intros i t Hi Ht; simpl S_paths.
  rewrite entry_simulated by auto.
  rewrite price_path_finite by (apply step_size_nonneg; auto).
  rewrite gbm_closed_form; [reflexivity|].
  rewrite fill_normal_row_length; auto.
Qed.

Lemma price_is_gbm_closed_form_witness :
  let p := script_params in
  let N := Z.to_nat 10000 in
  let M := Z.to_nat 252 in
  let dt := T p / IZR 252 in
  let Z := fill_normal alternating N M in
  exists out,
    main p alternating = Ok out /\
    forall i t, (i < N)%nat -> (t <= M)%nat ->
      entry (S_paths out) i t =
        Num (S0 p * exp ((r p - 0.5 * sigma p ^ 2) * dt * INR t
                         + sigma p * sqrt dt
                           * Rsum (firstn t (nth i Z [])))).
Proof.
  apply (price_is_gbm_closed_form script_params alternating); simpl;
    try lia; lra.
Defined.

(** X4.  For every non-empty vector of terminal prices, with
    [num_simulations] its length, the probability of profit is a finite
    number between 0 and 100, and so is the probability of loss. *)
Theorem probabilities_are_percentages (p : Params) (S_ : matrix) :
  last_column S_ <> [] ->
  num_simulations p = Z.of_nat (length (last_column S_)) ->
  exists profit,
    prob_profit (evaluate p S_) = Num profit /\
    prob_loss (evaluate p S_) = Num (100 - profit) /\
    0 <= profit <= 100.
Proof.
  intros Hne HN.
  exists (INR (count_gt (Num (K p)) (last_column S_))
          / INR (length (last_column S_)) * 100).
  assert (Hlen : 0 < INR (length (last_column S_))).
  { apply lt_0_INR; destruct (last_column S_); simpl; [congruence | lia]. }
  split; [|split].
  - unfold evaluate; simpl; unfold eval_prob_profit.
    rewrite HN, <- INR_IZR_INZ, fdiv_finite by lra; reflexivity.
  - unfold evaluate; simpl; unfold eval_prob_profit, eval_prob_loss.
    rewrite HN, <- INR_IZR_INZ, fdiv_finite by lra; reflexivity.
  - pose proof (count_gt_le_length (Num (K p)) (last_column S_)) as Hc.
    apply le_INR in Hc.
    pose proof (pos_INR (count_gt (Num (K p)) (last_column S_))) as H0.
    assert (Hq : 0 <= INR (count_gt (Num (K p)) (last_column S_))
                      / INR (length (last_column S_)) <= 1).
    { split.
      - apply Rmult_le_pos; auto.
        apply Rlt_le, Rinv_0_lt_compat; auto.
      - apply (Rmult_le_reg_r (INR (length (last_column S_)))); auto.
        unfold Rdiv; rewrite Rmult_assoc, Rinv_l by lra; lra. }
    lra.
Qed.

Lemma probabilities_are_percentages_witness :
  exists profit,
    prob_profit (evaluate three_paths_params three_paths) = Num profit /\
    prob_loss (evaluate three_paths_params three_paths) = Num (100 - profit) /\
    0 <= profit <= 100.
Proof.
  apply (probabilities_are_percentages three_paths_params three_paths).
  - discriminate.
  - reflexivity.
Defined.

(** X5.  No path reads another path's draws, and no price reads a draw of
    a later step: when two generators agree on the first [t] draws of path
    [i] (draws [i * num_steps .. i * num_steps + t - 1] of the stream), the
    two runs hold the same price for path [i] at step [t], whatever the
    generators yield elsewhere. *)
Theorem price_depends_on_own_draws (p : Params) (g1 g2 : rng) (i t : nat) :
  (1 <= num_steps p)%Z -> (0 <= num_simulations p)%Z ->
  let N := Z.to_nat (num_simulations p) in
  let M := Z.to_nat (num_steps p) in
  (i < N)%nat -> (t <= M)%nat ->
  (forall j, (j < t)%nat -> g1 (i * M + j)%nat = g2 (i * M + j)%nat) ->
  exists out1 out2,
    main p g1 = Ok out1 /\ main p g2 = Ok out2 /\
    entry (S_paths out1) i t = entry (S_paths out2) i t.
Proof.
  intros HM HN N M Hi Ht H.
  exists (evaluate p (simulated p g1)), (evaluate p (simulated p g2)).
  split; [apply main_runs; auto|].
  split; [apply main_runs; auto|].
  apply entry_simulated_ext; auto.
Qed.

Lemma price_depends_on_own_draws_witness :
  exists out1 out2,
    main three_paths_params alternating = Ok out1 /\
    main three_paths_params one_then_nine = Ok out2 /\
    entry (S_paths out1) 0 1 = entry (S_paths out2) 0 1.
Proof.
  apply (price_depends_on_own_draws three_paths_params
           alternating one_then_nine 0 1); simpl; try lia.
  intros j Hj; destruct j; [reflexivity | lia].
Defined.

(** X6.  The sign of the volatility only mirrors the shocks: a run with
    [-sigma] on the opposite draws ends exactly as the run with [sigma] on
    the draws themselves, with the same exception or the same outputs.  A
    negative [sigma] is therefore not rejected: it acts as the positive one
    on mirrored shocks. *)
Theorem negative_sigma_mirrors_shocks (p : Params) (g : rng) :
  main (flip_sigma p) (mirrored g) = main p g.
Proof.
  destruct (Z_le_gt_dec 1 (num_steps p)) as [HM|HM];
    [destruct (Z_le_gt_dec 0 (num_simulations p)) as [HN|HN]|].
  - rewrite (main_runs (flip_sigma p)), main_runs by auto.
    rewrite simulated_flip by auto; reflexivity.
  - unfold main, py_div, standard_normal; simpl.
    destruct (Z.eqb_spec (num_steps p) 0); [reflexivity|].
    destruct (Z.ltb_spec (num_simulations p) 0); [reflexivity | lia].
  - unfold main, py_div, standard_normal; simpl.
    destruct (Z.eqb_spec (num_steps p) 0); [reflexivity|].
    destruct (Z.ltb_spec (num_steps p) 0); [|lia].
    rewrite orb_true_r; reflexivity.
Qed.

(** X7.  In exact real arithmetic, for every non-empty vector of finite
    terminal prices, with [num_simulations] its length: the option price
    is 0 exactly when no path ends strictly above the strike, and that is
    also exactly when the probability of profit is 0. *)
Theorem worthless_iff_no_path_wins (p : Params) (S_ : matrix) (xs : list R) :
  last_column S_ = map Num xs -> xs <> [] ->
  num_simulations p = Z.of_nat (length xs) ->
  (option_price (evaluate p S_) = Num 0 <->
     Forall (fun x => x <= K p) xs) /\
  (prob_profit (evaluate p S_) = Num 0 <->
     Forall (fun x => x <= K p) xs).
Proof.
  intros Hcol Hxs HN.
  destruct (evaluate_finite p S_ xs Hcol Hxs HN) as (Ho & Hp & _).
  assert (Hlen : 0 < INR (length xs))
    by (apply lt_0_INR; destruct xs; simpl; [congruence | lia]).
  pose proof (exp_pos (- r p * T p)) as HD.
  rewrite Ho, Hp; split.
  - assert (Hne : map (fun x => Rmax (x - K p) 0) xs <> [])
      by (destruct xs; simpl; congruence).
    pose proof (Rmean_zero_iff _ Hne (call_payoffs_nonneg (K p) xs)) as Hz.
    rewrite Forall_map in Hz.
    split.
    + intros H; injection H as H.
      assert (Hm : Rmean (map (fun x => Rmax (x - K p) 0) xs) = 0) by nra.
      apply Hz in Hm; revert Hm; apply Forall_impl.
      intros x; apply call_payoff_zero_iff.
    + intros H; f_equal.
      assert (Hm : Rmean (map (fun x => Rmax (x - K p) 0) xs) = 0).
      { apply Hz; revert H; apply Forall_impl.
        intros x; apply call_payoff_zero_iff. }
      rewrite Hm; ring.
  - rewrite <- count_above_none; split.
    + intros H; injection H as H.
      assert (Hc : INR (count_above (K p) xs) = 0).
      { apply (Rmult_eq_reg_r (/ INR (length xs) * 100)).
        - unfold Rdiv in H; lra.
        - pose proof (Rinv_0_lt_compat _ Hlen); nra. }
      destruct (count_above (K p) xs); auto.
      rewrite S_INR in Hc; pose proof (pos_INR n); lra.
    + intros H; rewrite H; f_equal; simpl; unfold Rdiv; ring.
Qed.

Lemma worthless_iff_no_path_wins_witness :
  (option_price (evaluate three_paths_params three_losing_paths) = Num 0 <->
     Forall (fun x => x <= 265.00) [200; 250; 265]) /\
  (prob_profit (evaluate three_paths_params three_losing_paths) = Num 0 <->
     Forall (fun x => x <= 265.00) [200; 250; 265]).
Proof.
  apply (worthless_iff_no_path_wins three_paths_params three_losing_paths
           [200; 250; 265]).
  - reflexivity.
  - discriminate.
  - reflexivity.
Defined.

(** X8.  In exact real arithmetic, the average price shown on the histogram
    is the arithmetic mean of the terminal prices, and it bounds the option
    price: for every non-empty vector of finite terminal prices the option
    price is at least [max(average - K, 0) * exp(-r*T)], and when the
    strike and the prices are not negative it is at most
    [average * exp(-r*T)]. *)
Theorem call_price_bounds (p : Params) (S_ : matrix) (xs : list R) :
  last_column S_ = map Num xs -> xs <> [] ->
  exists o,
    avg_price (S_T (evaluate p S_)) = Num (Rmean xs) /\
    option_price (evaluate p S_) = Num o /\
    Rmax (Rmean xs - K p) 0 * exp (- r p * T p) <= o /\
    (0 <= K p -> Forall (fun x => 0 <= x) xs ->
     o <= Rmean xs * exp (- r p * T p)).
Proof.
  intros Hcol Hxs.
  pose proof (exp_pos (- r p * T p)) as HD.
  eexists; split; [|split; [|split]].
  - unfold evaluate, avg_price; simpl; rewrite Hcol.
    apply np_mean_reals; auto.
  - unfold evaluate; simpl; rewrite Hcol.
    apply option_price_reals; auto.
  - apply Rmult_le_compat_r; [lra|].
    apply Rmax_lub.
    + rewrite <- (Rmean_shift (K p) xs) by auto.
      rewrite <- (map_id xs) at 1; rewrite map_map.
      apply Rmean_map_le; intros x _; apply Rmax_l.
    + apply Rmean_nonneg, call_payoffs_nonneg.
  - intros HK Hpos.
    apply Rmult_le_compat_r; [lra|].
    rewrite <- (map_id xs) at 2.
    apply Rmean_map_le; intros x Hx.
    rewrite Forall_forall in Hpos; specialize (Hpos x Hx).
    apply Rmax_lub; lra.
Qed.

Lemma call_price_bounds_witness :
  exists o,
    avg_price (S_T (evaluate three_paths_params three_paths)) =
      Num (Rmean [300; 250; 265]) /\
    option_price (evaluate three_paths_params three_paths) = Num o /\
    Rmax (Rmean [300; 250; 265] - K three_paths_params) 0
      * exp (- r three_paths_params * T three_paths_params) <= o /\
    (0 <= K three_paths_params ->
     Forall (fun x => 0 <= x) [300; 250; 265] ->
     o <= Rmean [300; 250; 265]
          * exp (- r three_paths_params * T three_paths_params)).
Proof.
  apply (call_price_bounds three_paths_params three_paths [300; 250; 265]).
  - reflexivity.
  - discriminate.
Defined.

(** X9.  In exact real arithmetic, when every path ends strictly above the
    strike (in particular for a strike that is zero or negative and
    positive prices), for a non-empty vector of finite terminal prices
    with [num_simulations] its length: the probability of profit is 100,
    that of loss is 0, and the option price is
    [(average - K) * exp(-r*T)]. *)
Theorem all_paths_win (p : Params) (S_ : matrix) (xs : list R) :
  last_column S_ = map Num xs -> xs <> [] ->
  num_simulations p = Z.of_nat (length xs) ->
  Forall (fun x => K p < x) xs ->
  prob_profit (evaluate p S_) = Num 100 /\
  prob_loss (evaluate p S_) = Num 0 /\
  option_price (evaluate p S_) =
    Num ((Rmean xs - K p) * exp (- r p * T p)).
Proof.
  intros Hcol Hxs HN Hall.
  destruct (evaluate_finite p S_ xs Hcol Hxs HN) as (Ho & Hp & Hl).
  assert (Hlen : INR (length xs) <> 0)
    by (apply not_0_INR; destruct xs; simpl; congruence).
  rewrite Ho, Hp, Hl, count_above_all by auto.
  repeat split; f_equal; try (field; auto).
  f_equal; rewrite <- Rmean_shift by auto.
  f_equal; apply map_ext_in; intros x Hx.
  rewrite Forall_forall in Hall.
  apply call_payoff_above; auto.
Qed.

Lemma all_paths_win_witness :
  prob_profit (evaluate three_paths_params three_winning_paths) = Num 100 /\
  prob_loss (evaluate three_paths_params three_winning_paths) = Num 0 /\
  option_price (evaluate three_paths_params three_winning_paths) =
    Num ((Rmean [300; 270; 266] - K three_paths_params)
         * exp (- r three_paths_params * T three_paths_params)).
Proof.
  apply (all_paths_win three_paths_params three_winning_paths
           [300; 270; 266]).
  - reflexivity.
  - discriminate.
  - reflexivity.
  - repeat constructor; simpl; lra.
Defined.

(** X17.  In exact real arithmetic, raising the strike lowers the valuation,
    by no more than the discounted rise: for a non-empty vector of finite
    terminal prices with
    [num_simulations] its length and a strike [k' >= K], the option price
    at [k'] is at most the one at [K] and falls short of it by at most
    [(k' - K) * exp(-r*T)]; the probability of profit at [k'] is at most
    the one at [K]. *)
Theorem price_falls_as_strike_rises
  (p : Params) (k' : R) (S_ : matrix) (xs : list R) :
  last_column S_ = map Num xs -> xs <> [] ->
  num_simulations p = Z.of_nat (length xs) ->
  K p <= k' ->
  exists o o' q q',
    option_price (evaluate p S_) = Num o /\
    option_price (evaluate (with_strike k' p) S_) = Num o' /\
    o' <= o /\ o - o' <= (k' - K p) * exp (- r p * T p) /\
    prob_profit (evaluate p S_) = Num q /\
    prob_profit (evaluate (with_strike k' p) S_) = Num q' /\
    q' <= q.
Proof.
  intros Hcol Hxs HN Hk.
  destruct (evaluate_finite p S_ xs Hcol Hxs HN) as (Ho & Hp & _).
  destruct (evaluate_finite (with_strike k' p) S_ xs Hcol Hxs HN)
    as (Ho' & Hp' & _).
  simpl K in Ho', Hp'; simpl r in Ho'; simpl T in Ho'.
  pose proof (exp_pos (- r p * T p)) as HD.
  assert (Hlen : 0 < INR (length xs))
    by (apply lt_0_INR; destruct xs; simpl; [congruence | lia]).
  assert (Hle : Rmean (map (fun x => Rmax (x - k') 0) xs)
                <= Rmean (map (fun x => Rmax (x - K p) 0) xs))
    by (apply Rmean_map_le; intros x _; apply call_payoff_strike_le; auto).
  assert (Hgap : Rmean (map (fun x => Rmax (x - K p) 0) xs)
                 <= Rmean (map (fun x => Rmax (x - k') 0) xs) - (K p - k')).
  { rewrite <- Rmean_shift by (destruct xs; simpl; congruence).
    rewrite map_map.
    apply Rmean_map_le; intros x _; apply call_payoff_strike_gap; auto. }
  do 4 eexists.
  split; [exact Ho|]; split; [exact Ho'|].
  split; [nra|]; split; [nra|].
  split; [exact Hp|]; split; [exact Hp'|].
  apply Rmult_le_compat_r; [lra|].
  apply Rmult_le_compat_r; [apply Rlt_le, Rinv_0_lt_compat; auto|].
  apply le_INR, count_above_strike_le; auto.
Qed.

Lemma price_falls_as_strike_rises_witness :
  let p := three_paths_params in
  exists o o' q q',
    option_price (evaluate p three_paths) = Num o /\
    option_price (evaluate (with_strike 280 p) three_paths) = Num o' /\
    o' <= o /\ o - o' <= (280 - K p) * exp (- r p * T p) /\
    prob_profit (evaluate p three_paths) = Num q /\
    prob_profit (evaluate (with_strike 280 p) three_paths) = Num q' /\
    q' <= q.
Proof.
  apply (price_falls_as_strike_rises three_paths_params 280 three_paths
           [300; 250; 265]).
  - reflexivity.
  - discriminate.
  - reflexivity.
  - simpl; lra.
Defined.

(** X10.  In exact real arithmetic, larger draws give larger prices: with
    [S0 >= 0], [sigma >= 0] and parameters of the data model, when every
    draw of one generator is
    at most the matching draw of another, every price of the first run is
    at most the matching price of the second, and so are its option price
    and its probability of profit. *)
Theorem prices_grow_with_draws (p : Params) (g1 g2 : rng) :
  0 <= S0 p -> 0 <= sigma p -> 0 <= T p ->
  (1 <= num_steps p)%Z -> (1 <= num_simulations p)%Z ->
  (forall k, g1 k <= g2 k) ->
  let N := Z.to_nat (num_simulations p) in
  let M := Z.to_nat (num_steps p) in
  exists out1 out2,
    main p g1 = Ok out1 /\ main p g2 = Ok out2 /\
    (forall i t, (i < N)%nat -> (t <= M)%nat ->
       exists x1 x2,
         entry (S_paths out1) i t = Num x1 /\
         entry (S_paths out2) i t = Num x2 /\ x1 <= x2) /\
    (exists o1 o2,
       option_price out1 = Num o1 /\ option_price out2 = Num o2 /\
       o1 <= o2) /\
    (exists q1 q2,
       prob_profit out1 = Num q1 /\ prob_profit out2 = Num q2 /\
       q1 <= q2).
Proof.
  intros H0 Hs HT HM HN Hg N M.
  assert (Hdt : 0 <= T p / IZR (num_steps p))
    by (apply step_size_nonneg; auto).
  destruct (run_finite p g1 HM HN HT) as (_ & Ho1 & Hp1 & _).
  destruct (run_finite p g2 HM HN HT) as (_ & Ho2 & Hp2 & _).
  assert (Hrow : forall i,
             gbm p (T p / IZR (num_steps p))
                 (map (fun j => g1 (i * M + j)%nat) (seq 0 M)) M
             <= gbm p (T p / IZR (num_steps p))
                    (map (fun j => g2 (i * M + j)%nat) (seq 0 M)) M).
  { intros i; apply gbm_mono; auto.
    intros j Hj; rewrite !nth_draws by auto; apply Hg. }
  exists (evaluate p (simulated p g1)), (evaluate p (simulated p g2)).
  split; [apply main_runs; lia|].
  split; [apply main_runs; lia|].
  split; [|split].
  - intros i t Hi Ht; simpl S_paths.
    rewrite !entry_simulated_finite by auto.
    do 2 eexists; split; [reflexivity|]; split; [reflexivity|].
    apply gbm_mono; auto.
    intros j Hj; rewrite !nth_fill_normal by (auto; fold M; lia).
    apply Hg.
  - rewrite Ho1, Ho2.
    do 2 eexists; split; [reflexivity|]; split; [reflexivity|].
    apply Rmult_le_compat_r; [apply Rlt_le, exp_pos|].
    rewrite !terminal_reals_seq, !map_map.
    apply Rmean_map_le; intros i _.
    apply call_payoff_mono, Hrow.
  - rewrite Hp1, Hp2.
    do 2 eexists; split; [reflexivity|]; split; [reflexivity|].
    assert (HNpos : 0 < INR (Z.to_nat (num_simulations p)))
      by (apply lt_0_INR; lia).
    apply Rmult_le_compat_r; [lra|].
    apply Rmult_le_compat_r;
      [apply Rlt_le, Rinv_0_lt_compat; auto|].
    apply le_INR.
    rewrite !terminal_reals_seq.
    apply count_above_map_le; intros i _; apply Hrow.
Qed.

Lemma prices_grow_with_draws_witness :
  let N := Z.to_nat 10000 in
  let M := Z.to_nat 252 in
  exists out1 out2,
    main script_params alternating = Ok out1 /\
    main script_params alternating_up = Ok out2 /\
    (forall i t, (i < N)%nat -> (t <= M)%nat ->
       exists x1 x2,
         entry (S_paths out1) i t = Num x1 /\
         entry (S_paths out2) i t = Num x2 /\ x1 <= x2) /\
    (exists o1 o2,
       option_price out1 = Num o1 /\ option_price out2 = Num o2 /\
       o1 <= o2) /\
    (exists q1 q2,
       prob_profit out1 = Num q1 /\ prob_profit out2 = Num q2 /\
       q1 <= q2).
Proof.
  apply (prices_grow_with_draws script_params alternating alternating_up);
    simpl; try lia; try lra.
  intros k; unfold alternating, alternating_up.
  destruct (Nat.even k); lra.
Defined.

(** X11.  In exact real arithmetic, the valuation is homogeneous in the
    prices: multiplying the spot price and the strike by the same [c > 0]
    multiplies every price of the
    matrix and the option price by [c] and leaves the probabilities of
    profit and of loss unchanged (same draws, parameters of the data
    model). *)
Theorem valuation_is_homogeneous (c : R) (p : Params) (g : rng) :
  0 < c ->
  (1 <= num_steps p)%Z -> (1 <= num_simulations p)%Z -> 0 <= T p ->
  let N := Z.to_nat (num_simulations p) in
  let M := Z.to_nat (num_steps p) in
  exists out out',
    main p g = Ok out /\ main (scale_prices c p) g = Ok out' /\
    (forall i t, (i < N)%nat -> (t <= M)%nat ->
       exists x,
         entry (S_paths out) i t = Num x /\
         entry (S_paths out') i t = Num (c * x)) /\
    (exists o,
       option_price out = Num o /\ option_price out' = Num (c * o)) /\
    prob_profit out' = prob_profit out /\
    prob_loss out' = prob_loss out.
Proof.
  intros Hc HM HN HT N M.
  destruct (run_finite p g HM HN HT) as (_ & Ho & Hp & Hl).
  destruct (run_finite (scale_prices c p) g HM HN HT) as (_ & Ho' & Hp' & Hl').
  simpl K in Ho', Hp', Hl'; simpl r in Ho'; simpl T in Ho';
    simpl num_simulations in Hp', Hl'.
  rewrite terminal_reals_scale in Ho', Hp', Hl'.
  rewrite count_above_scale in Hp', Hl' by auto.
  exists (evaluate p (simulated p g)),
    (evaluate (scale_prices c p) (simulated (scale_prices c p) g)).
  split; [apply main_runs; lia|].
  split; [apply (main_runs (scale_prices c p)); simpl; lia|].
  split; [|split; [|split]].
  - intros i t Hi Ht; simpl S_paths.
    rewrite entry_simulated_finite by auto.
    rewrite (entry_simulated_finite (scale_prices c p)) by auto.
    simpl T; simpl num_steps; simpl num_simulations.
    rewrite gbm_scale; eauto.
  - rewrite Ho, Ho'.
    eexists; split; [reflexivity|]; f_equal.
    rewrite map_map.
    rewrite (map_ext _ (fun x => c * Rmax (x - K p) 0))
      by (intros x; apply call_payoff_scale; lra).
    rewrite <- (map_map (fun x => Rmax (x - K p) 0) (fun y => c * y)).
    rewrite Rmean_scale; ring.
  - rewrite Hp, Hp'; reflexivity.
  - rewrite Hl, Hl'; reflexivity.
Qed.

Lemma valuation_is_homogeneous_witness :
  let N := Z.to_nat 10000 in
  let M := Z.to_nat 252 in
  exists out out',
    main script_params alternating = Ok out /\
    main (scale_prices 3 script_params) alternating = Ok out' /\
    (forall i t, (i < N)%nat -> (t <= M)%nat ->
       exists x,
         entry (S_paths out) i t = Num x /\
         entry (S_paths out') i t = Num (3 * x)) /\
    (exists o,
       option_price out = Num o /\ option_price out' = Num (3 * o)) /\
    prob_profit out' = prob_profit out /\
    prob_loss out' = prob_loss out.
Proof.
  apply (valuation_is_homogeneous 3 script_params alternating); simpl;
    try lia; lra.
Defined.

(** X12.  A spot price that is zero or negative is not rejected and gives
    a degenerate valuation; in exact real arithmetic: with [S0 <= 0], a
    strike [K >= 0] and otherwise parameters of the data model, the run
    returns, no price of
    the matrix is positive (all are 0 when [S0 = 0]), the option price is
    0, the probability of profit is 0 and that of loss is 100. *)
Theorem nonpositive_spot_is_worthless (p : Params) (g : rng) :
  S0 p <= 0 -> 0 <= K p ->
  (1 <= num_steps p)%Z -> (1 <= num_simulations p)%Z -> 0 <= T p ->
  let N := Z.to_nat (num_simulations p) in
  let M := Z.to_nat (num_steps p) in
  exists out,
    main p g = Ok out /\
    (forall i t, (i < N)%nat -> (t <= M)%nat ->
       exists x, entry (S_paths out) i t = Num x /\ x <= 0 /\
                 (S0 p = 0 -> x = 0)) /\
    option_price out = Num 0 /\
    prob_profit out = Num 0 /\
    prob_loss out = Num 100.
Proof.
  intros H0 HK HM HN HT N M.
  exists (evaluate p (simulated p g)).
  split; [apply main_runs; lia|].
  split.
  - intros i t Hi Ht; simpl S_paths.
    rewrite entry_simulated_finite by auto.
    eexists; split; [reflexivity|]; split.
    + apply gbm_nonpos; auto.
    + apply gbm_zero_spot.
  - apply (evaluate_no_win p _ (terminal_reals p g)).
    + apply terminal_prices_finite; auto.
    + apply terminal_reals_nonempty; auto.
    + rewrite terminal_reals_length; lia.
    + unfold terminal_reals; apply Forall_map, Forall_forall.
      intros zrow _.
      pose proof (gbm_nonpos p (T p / IZR (num_steps p)) zrow
                    (Z.to_nat (num_steps p)) H0).
      lra.
Qed.

Lemma nonpositive_spot_is_worthless_witness :
  let p := negative_spot_params in
  let N := Z.to_nat 10000 in
  let M := Z.to_nat 252 in
  exists out,
    main p alternating = Ok out /\
    (forall i t, (i < N)%nat -> (t <= M)%nat ->
       exists x, entry (S_paths out) i t = Num x /\ x <= 0 /\
                 (S0 p = 0 -> x = 0)) /\
    option_price out = Num 0 /\
    prob_profit out = Num 0 /\
    prob_loss out = Num 100.
Proof.
  apply (nonpositive_spot_is_worthless negative_spot_params alternating);
    simpl; try lia; lra.
Defined.

(** X13.  A horizon of zero is not rejected and gives the intrinsic value;
    in exact real arithmetic: with [T = 0], at least one step and one
    path, whatever the draws, every
    price of the matrix is [S0], the option price is [max(S0 - K, 0)], and
    the probability of profit is 100 when [S0 > K] and 0 otherwise. *)
Theorem zero_horizon_is_intrinsic_value (p : Params) (g : rng) :
  T p = 0 ->
  (1 <= num_steps p)%Z -> (1 <= num_simulations p)%Z ->
  let N := Z.to_nat (num_simulations p) in
  let M := Z.to_nat (num_steps p) in
  exists out,
    main p g = Ok out /\
    (forall i t, (i < N)%nat -> (t <= M)%nat ->
       entry (S_paths out) i t = Num (S0 p)) /\
    option_price out = Num (Rmax (S0 p - K p) 0) /\
    (K p < S0 p -> prob_profit out = Num 100) /\
    (S0 p <= K p -> prob_profit out = Num 0).
Proof.
  intros HT HM HN N M.
  assert (HT0 : 0 <= T p) by lra.
  assert (Hdt : T p / IZR (num_steps p) = 0)
    by (rewrite HT; unfold Rdiv; ring).
  assert (Hxs : terminal_reals p g = repeat (S0 p) N).
  { unfold terminal_reals; rewrite Hdt.
    rewrite (map_ext _ (fun _ => S0 p))
      by (intros zrow; apply gbm_zero_step).
    rewrite map_const, fill_normal_length; reflexivity. }
  assert (Hcol : last_column (simulated p g) = map Num (repeat (S0 p) N))
    by (rewrite <- Hxs; apply terminal_prices_finite; auto).
  assert (Hne : repeat (S0 p) N <> [])
    by (rewrite <- Hxs; apply terminal_reals_nonempty; auto).
  assert (Hlen : num_simulations p = Z.of_nat (length (repeat (S0 p) N)))
    by (rewrite repeat_length; unfold N; lia).
  exists (evaluate p (simulated p g)).
  split; [apply main_runs; lia|].
  split; [|split; [|split]].
  - intros i t Hi Ht; simpl S_paths.
    rewrite entry_simulated_finite, Hdt by auto.
    f_equal; apply gbm_zero_step.
  - destruct (evaluate_finite p _ _ Hcol Hne Hlen) as (Ho & _).
    rewrite Ho, map_repeat, Rmean_constant by (unfold N; lia).
    rewrite HT, Rmult_0_r, exp_0; f_equal; ring.
  - intros Hwin.
    apply (evaluate_all_win p _ _ Hcol Hne Hlen).
    apply Forall_forall; intros x Hx.
    apply repeat_spec in Hx; subst; auto.
  - intros Hlose.
    apply (evaluate_no_win p _ _ Hcol Hne Hlen).
    apply Forall_forall; intros x Hx.
    apply repeat_spec in Hx; subst; auto.
Qed.

Lemma zero_horizon_is_intrinsic_value_witness :
  let p := zero_horizon_params in
  let N := Z.to_nat 10000 in
  let M := Z.to_nat 252 in
  exists out,
    main p alternating = Ok out /\
    (forall i t, (i < N)%nat -> (t <= M)%nat ->
       entry (S_paths out) i t = Num (S0 p)) /\
    option_price out = Num (Rmax (S0 p - K p) 0) /\
    (K p < S0 p -> prob_profit out = Num 100) /\
    (S0 p <= K p -> prob_profit out = Num 0).
Proof.
  apply (zero_horizon_is_intrinsic_value zero_horizon_params alternating);
    simpl; [reflexivity | lia | lia].
Defined.

(** X14.  The colouring loop paints each bar of the histogram by the left
    edge of its bin alone: green when that edge is at or above the strike,
    red when it is below, with alpha 0.7 either way; it keeps the number
    of bars, and it never reads the last edge (the right end of the last
    bin). *)
Theorem bars_are_coloured_by_left_edge
  (k : R) (lefts : list R) (right : R) (patches : list Patch) :
  length lefts = length patches ->
  let out := colour_patches k (map Num (lefts ++ [right])) patches in
  length out = length patches /\
  (forall j d, (j < length patches)%nat ->
     alpha (nth j out d) = Some 0.7 /\
     (facecolor (nth j out d) = forestgreen <-> k <= nth j lefts 0) /\
     (facecolor (nth j out d) = firebrick <-> nth j lefts 0 < k)) /\
  (forall right',
     colour_patches k (map Num (lefts ++ [right'])) patches = out).
Proof.
  intros Hlen out; split; [apply colour_patches_length|]; split.
  - intros j d Hj; unfold out.
    rewrite nth_colour_patches
      by (rewrite ?length_map, ?length_app; simpl; lia).
    rewrite (nth_indep _ NaN (Num 0))
      by (rewrite length_map, length_app; simpl; lia).
    rewrite (map_nth Num), app_nth1 by lia.
    split; [apply colour_patch_alpha|].
    split; [apply colour_patch_green | apply colour_patch_red].
  - intros right'; unfold out, colour_patches.
    rewrite !map_app, !map2_spare_left by (rewrite length_map; lia).
    rewrite !skipn_all2
      by (rewrite length_app, length_map; simpl; lia).
    reflexivity.
Qed.

Lemma bars_are_coloured_by_left_edge_witness :
  let out :=
    colour_patches 265.00 (map Num (left_edges ++ [right_edge])) three_bars in
  length out = length three_bars /\
  (forall j d, (j < length three_bars)%nat ->
     alpha (nth j out d) = Some 0.7 /\
     (facecolor (nth j out d) = forestgreen <->
        265.00 <= nth j left_edges 0) /\
     (facecolor (nth j out d) = firebrick <->
        nth j left_edges 0 < 265.00)) /\
  (forall right',
     colour_patches 265.00 (map Num (left_edges ++ [right'])) three_bars
     = out).
Proof.
  apply (bars_are_coloured_by_left_edge 265.00 left_edges right_edge
           three_bars).
  reflexivity.
Defined.

(** X15.  With edges that never decrease, as a histogram returns them, the
    green bars are the last ones: every bar after a green bar is green.
    And a bar whose bin straddles the strike (left edge below it) is red,
    although the part of the bin above the strike holds winning paths. *)
Theorem green_bars_are_the_last_ones
  (k : R) (lefts : list R) (right : R) (patches : list Patch) :
  length lefts = length patches ->
  nondecreasing (lefts ++ [right]) ->
  let out := colour_patches k (map Num (lefts ++ [right])) patches in
  (forall i j d, (i <= j < length patches)%nat ->
     facecolor (nth i out d) = forestgreen ->
     facecolor (nth j out d) = forestgreen) /\
  (forall j d, (j < length patches)%nat ->
     nth j (lefts ++ [right]) 0 < k < nth (S j) (lefts ++ [right]) 0 ->
     facecolor (nth j out d) = firebrick).
Proof.
  intros Hlen Hsorted out.
  assert (Hnth : forall j d, (j < length patches)%nat ->
            nth j out d =
              colour_patch k (Num (nth j (lefts ++ [right]) 0))
                           (nth j patches d)).
  { intros j d Hj; unfold out.
    rewrite nth_colour_patches
      by (rewrite ?length_map, ?length_app; simpl; lia).
    rewrite (nth_indep _ NaN (Num 0))
      by (rewrite length_map, length_app; simpl; lia).
    rewrite (map_nth Num); reflexivity. }
  split.
  - intros i j d Hij; rewrite !Hnth by lia.
    rewrite !colour_patch_green; intros Hi.
    assert (nth i (lefts ++ [right]) 0 <= nth j (lefts ++ [right]) 0)
      by (apply Hsorted; rewrite length_app; simpl; lia).
    lra.
  - intros j d Hj [Hlow _]; rewrite Hnth by auto.
    apply colour_patch_red; auto.
Qed.

Lemma green_bars_are_the_last_ones_witness :
  let out :=
    colour_patches 265.00 (map Num (left_edges ++ [right_edge])) three_bars in
  (forall i j d, (i <= j < length three_bars)%nat ->
     facecolor (nth i out d) = forestgreen ->
     facecolor (nth j out d) = forestgreen) /\
  (forall j d, (j < length three_bars)%nat ->
     nth j (left_edges ++ [right_edge]) 0 < 265.00
       < nth (S j) (left_edges ++ [right_edge]) 0 ->
     facecolor (nth j out d) = firebrick).
Proof.
  apply (green_bars_are_the_last_ones 265.00 left_edges right_edge
           three_bars).
  - reflexivity.
  - intros i j [Hij Hj]; simpl in Hj.
    destruct j as [|[|[|[|j]]]]; try lia;
      destruct i as [|[|[|[|i]]]]; try lia;
      unfold left_edges, right_edge; simpl; lra.
Defined.

(** X16.  The path plot is handed [S[:50, :].T]: a line per simulated
    path for the first 50 paths only (all of them when there are fewer),
    each line the whole path with its [num_steps + 1] prices in order.
    For parameters that reach the loop, the array plotted has
    [num_steps + 1] rows and [min(50, num_simulations)] columns and its
    entry [t, j] is the price of path [j] at step [t]. *)
Theorem plot_gets_first_fifty_paths (p : Params) (g : rng) :
  (1 <= num_steps p)%Z -> (0 <= num_simulations p)%Z ->
  let N := Z.to_nat (num_simulations p) in
  let M := Z.to_nat (num_steps p) in
  exists out,
    main p g = Ok out /\
    shaped (S M) (Nat.min 50 N) (plotted_paths p (S_paths out)) /\
    forall t j, (t <= M)%nat -> (j < Nat.min 50 N)%nat ->
      entry (plotted_paths p (S_paths out)) t j = entry (S_paths out) j t.
Proof.
  intros HM HN N M.
  exists (evaluate p (simulated p g)).
  split; [apply main_runs; auto|].
  simpl S_paths; unfold plotted_paths.
  rewrite (width_is_steps_plus_one p HM); fold M.
  assert (Hrows : length (simulated p g) = N)
    by (apply (simulated_shaped p g HM)).
  split.
  - rewrite <- Hrows, <- length_firstn.
    apply np_transpose_shaped.
  - intros t j Ht Hj.
    rewrite entry_np_transpose by lia.
    unfold entry; rewrite nth_firstn.
    destruct (Nat.ltb_spec j 50); [reflexivity | lia].
Qed.

Lemma plot_gets_first_fifty_paths_witness :
  let p := script_params in
  let N := Z.to_nat 10000 in
  let M := Z.to_nat 252 in
  exists out,
    main p alternating = Ok out /\
    shaped (S M) (Nat.min 50 N) (plotted_paths p (S_paths out)) /\
    forall t j, (t <= M)%nat -> (j < Nat.min 50 N)%nat ->
      entry (plotted_paths p (S_paths out)) t j = entry (S_paths out) j t.
Proof.
  apply (plot_gets_first_fifty_paths script_params alternating); simpl; lia.
Defined.
